(** * Lyric Looper: the beat-synchronised timing engine and frame exporter

    A shallow embedding of [Lyric_Looper.py] (class [TextVideoPlayer]) and
    the properties of its timing model, colour blend, live scheduler,
    metronome and frame exporter.

    Conventions of the embedding.
    - Python [float] values are idealised as exact rationals ([Q]); every
      concrete input used below is either a dyadic rational or far from a
      rounding boundary, so binary64 arithmetic agrees with the rational
      result there.  Equality of durations is [Qeq] ([==]).  Truncation
      [int(x)] is sensitive to the last bit of [x]: for the colour blend
      the rounding of each float operation is written out
      ([blend_channel_fl]), and the frame counters are related to the
      exact products with a margin of one ([truncated]), so that those
      statements do not depend on the idealisation.
    - Python [int] is [Z]; [int(x)] on a float truncates toward zero
      ([py_int]); [%] and [//] on ints are [Z.modulo] and [Z.div].
    - The Tk variables ([IntVar], [StringVar], [BooleanVar]) and the fields
      read by the timing code are gathered in the record [Settings], which
      plays the role of [self].
    - [bpm] is divided by; Python raises [ZeroDivisionError] at 0, which the
      spin box (20..300) excludes.  Statements that depend on a duration
      carry [0 < bpm] explicitly. *)

From Stdlib Require Import ZArith QArith Qabs Qround Qminmax Lia Lqa List Ascii String Bool.
From stdpp Require Import gmap strings.
Import ListNotations.

Local Open Scope Z_scope.
Local Open Scope Q_scope.

(** ** Python numerics *)

(** [int(x)] for a float [x]: truncation toward zero. *)
Definition py_int (x : Q) : Z := Z.quot (Qnum x) (Zpos (Qden x)).

(** The comparisons [a < b] and [a <= b] as the conditions the code tests. *)
Definition Qltb (a b : Q) : bool := match Qcompare a b with Lt => true | _ => false end.
Definition Qleb (a b : Q) : bool := match Qcompare a b with Gt => false | _ => true end.

(** [max(a, b)] on numbers: the first argument wins ties. *)
Definition py_max (a b : Q) : Q := if Qltb a b then b else a.

(** [range(n)] as the list [0; 1; ...; n-1] (empty when [n <= 0]). *)
Definition range (n : Z) : list Z := map Z.of_nat (seq 0 (Z.to_nat n)).

(** ** TimeModel *)

Record Settings := mkSettings {
  bpm : Z;
  word_note_value : string;
  fade_in_note : string;
  fade_out_note : string;
  gap_note : string;
  gap_negative : bool;
  time_signature_num : Z;
  loop_enabled : bool;
  loop_mode : string;
  loop_bars : Z;
  loop_times : Z;
  loop_infinite : bool;
  start_word : Z;
  export_fps : Z;
  export_transparent : bool;
  font_color : string;
  bg_color : string;
  words : list string
}.

(** [self.note_values]: note token to quarter-note multiples. *)
Definition note_values : gmap string Q :=
  list_to_map
    [ ("1/32"%string, 1 # 8); ("1/16"%string, 1 # 4); ("1/8"%string, 1 # 2);
      ("1/4"%string, 1); ("1/2"%string, 2); ("1"%string, 4); ("2"%string, 8);
      ("4"%string, 16); ("8"%string, 32); ("16"%string, 64) ].

(** [dict.get(key, default)] *)
Definition dict_get (d : gmap string Q) (key : string) (dflt : Q) : Q :=
  match d !! key with
  | Some v => v
  | None => dflt
  end.

Definition note_to_seconds (s : Settings) (note_str : string) : Q :=
  if String.eqb note_str "0" then 0
  else dict_get note_values note_str 1 * 60 / inject_Z (bpm s).

Definition get_bar_seconds (s : Settings) : Q :=
  inject_Z (time_signature_num s) * 60 / inject_Z (bpm s).

(** ** BlendFunction *)

(** [str.lstrip('#')] *)
Fixpoint lstrip_hash (s : string) : string :=
  match s with
  | String c r => if Ascii.eqb c "#" then lstrip_hash r else s
  | EmptyString => s
  end.

Definition hex_digit (c : ascii) : option Z :=
  let n := Z.of_nat (nat_of_ascii c) in
  if (48 <=? n)%Z && (n <=? 57)%Z then Some (n - 48)%Z
  else if (97 <=? n)%Z && (n <=? 102)%Z then Some (n - 87)%Z
  else if (65 <=? n)%Z && (n <=? 70)%Z then Some (n - 55)%Z
  else None.

Fixpoint int16_digits (acc : Z) (s : string) : option Z :=
  match s with
  | EmptyString => Some acc
  | String c r =>
      match hex_digit c with
      | Some d => int16_digits (16 * acc + d)%Z r
      | None => None
      end
  end.

(** [int(s, 16)] on a string of hexadecimal digits; [None] is the
    [ValueError].  Python also accepts a sign, surrounding blanks, [0x] and
    underscores; colours come from the colour chooser as [#rrggbb], so
    those spellings are not modelled and are rejected here. *)
Definition int16 (s : string) : option Z :=
  match s with
  | EmptyString => None
  | _ => int16_digits 0 s
  end.

Definition RGB : Type := (Z * Z * Z)%type.

Definition hex_to_rgb (hex_color : string) : option RGB :=
  let h := lstrip_hash hex_color in
  match int16 (substring 0 2 h), int16 (substring 2 2 h), int16 (substring 4 2 h) with
  | Some r, Some g, Some b => Some (r, g, b)
  | _, _, _ => None
  end.

Definition hex_char (d : Z) : ascii :=
  if (d <? 10)%Z then ascii_of_nat (Z.to_nat (d + 48)) else ascii_of_nat (Z.to_nat (d + 87)).

Fixpoint hex_digits (fuel : nat) (n : Z) (acc : string) : string :=
  match fuel with
  | O => acc
  | S k =>
      let acc' := String (hex_char (n mod 16)) acc in
      if (n / 16 =? 0)%Z then acc' else hex_digits k (n / 16) acc'
  end.

(** Lower-case hexadecimal digits of [n >= 0]; [Z.log2 n + 1] binary digits
    bound the number of hexadecimal ones. *)
Definition to_hex (n : Z) : string := hex_digits (S (Z.to_nat (Z.log2 n))) n EmptyString.

(** The format field [{:02x}]: sign, then digits zero-padded to width 2. *)
Definition fmt02x (n : Z) : string :=
  if (n <? 0)%Z then String "-" (to_hex (- n))
  else
    let h := to_hex n in
    if (String.length h <? 2)%nat then String "0" h else h.

(** One channel of the interpolation, as both [blend_color] and
    [_render_frame] write it: [int(f * opacity + b * (1 - opacity))]. *)
Definition lerp (f b : Z) (opacity : Q) : Q :=
  inject_Z f * opacity + inject_Z b * (1 - opacity).

Definition blend_channel (f b : Z) (opacity : Q) : Z := py_int (lerp f b opacity).

Definition blend_rgb (fg bg : RGB) (opacity : Q) : RGB :=
  let '(fr, fg', fb) := fg in
  let '(br, bg', bb) := bg in
  (blend_channel fr br opacity, blend_channel fg' bg' opacity, blend_channel fb bb opacity).

Definition format_rgb (c : RGB) : string :=
  let '(r, g, b) := c in
  String "#" (fmt02x r ++ fmt02x g ++ fmt02x b).

Definition blend_color (fg bg : string) (opacity : Q) : option string :=
  match hex_to_rgb fg, hex_to_rgb bg with
  | Some fg_rgb, Some bg_rgb => Some (format_rgb (blend_rgb fg_rgb bg_rgb opacity))
  | _, _ => None
  end.

(** Python truthiness of an optional string ([None] and [''] are false). *)
Definition truthy (s : option string) : bool :=
  match s with
  | Some (String _ _) => true
  | _ => false
  end.

Definition text_of (s : option string) : string :=
  match s with Some t => t | None => EmptyString end.

(** [display_word]: the texts drawn on the canvas, bottom first, each with
    its fill colour; [None] when a colour string does not parse. *)
Definition display_word (s : Settings) (word : option string) (opacity : Q)
    (prev_word : option string) (prev_opacity : Q) : option (list (string * string)) :=
  let draw (t : option string) (o : Q) : option (list (string * string)) :=
    if truthy t && Qltb 0 o then
      match blend_color (font_color s) (bg_color s) o with
      | Some color => Some [(text_of t, color)]
      | None => None
      end
    else Some [] in
  match draw prev_word prev_opacity, draw word opacity with
  | Some a, Some b => Some (a ++ b)
  | _, _ => None
  end.

(** Fill colour handed to the raster library by [_render_frame]. *)
Inductive Fill :=
| FillRGB (c : RGB)
| FillRGBA (c : RGB) (alpha : Z).

(** [_render_frame]: the texts drawn on the frame, bottom first. *)
Definition _render_frame (word : option string) (op : Q) (prev_word : option string)
    (prev_op : Q) (bg fg : RGB) (use_alpha : bool) : list (string * Fill) :=
  let draw (t : option string) (o : Q) : list (string * Fill) :=
    if truthy t && Qltb 0 o then
      if use_alpha then [(text_of t, FillRGBA fg (py_int (255 * o)))]
      else [(text_of t, FillRGB (blend_rgb fg bg o))]
    else [] in
  draw prev_word prev_op ++ draw word op.



(** ** Durations shared by the display, the live loop and the exporter *)

Definition word_dur (s : Settings) : Q := note_to_seconds s (word_note_value s).
Definition fade_in (s : Settings) : Q := note_to_seconds s (fade_in_note s).
Definition fade_out (s : Settings) : Q := note_to_seconds s (fade_out_note s).
Definition gap (s : Settings) : Q :=
  let g := note_to_seconds s (gap_note s) in
  if gap_negative s then - g else g.

Definition is_bars (s : Settings) : bool :=
  loop_enabled s && String.eqb (loop_mode s) "bars".

(** [len(l)] as a Python int. *)
Definition len {A} (l : list A) : Z := Z.of_nat (List.length l).

(** ** Duration display *)

Inductive DurationLabel :=
| DurationZero                          (* "Duration: 0:00" *)
| DurationLoopInf (loop_dur : Q)        (* "Duration: {loop_dur}s x inf" *)
| DurationLoopTimes (total : Q) (times : Z)
| DurationPlain (single_pass : Q).      (* minutes and seconds of single_pass *)

Definition single_pass (s : Settings) : Q :=
  let start_idx := (start_word s - 1)%Z in
  let word_count := (len (words s) - start_idx)%Z in
  py_max 0 (inject_Z word_count * word_dur s + inject_Z (word_count - 1) * gap s).

Definition update_duration_display (s : Settings) : DurationLabel :=
  match words s with
  | [] => DurationZero
  | _ =>
      if loop_enabled s then
        let loop_dur :=
          if String.eqb (loop_mode s) "bars"
          then inject_Z (loop_bars s) * get_bar_seconds s
          else single_pass s in
        if loop_infinite s then DurationLoopInf loop_dur
        else DurationLoopTimes (loop_dur * inject_Z (loop_times s)) (loop_times s)
      else DurationPlain (single_pass s)
  end.

(** ** MetronomeClock *)

Record Metro := mkMetro { metro_beat : Z; next_beat : Q }.

(** The arguments of [update_beat_display(b, bar, elapsed)]. *)
Record Tick := mkTick { tick_b : Z; tick_bar : Z; tick_elapsed : Q }.

Definition metro_init : Metro := {| metro_beat := 0; next_beat := 0 |}.

(** The metronome check every polling site of [_playback_loop] repeats:
    [if elapsed >= next_beat: ...; metro_beat += 1; next_beat = metro_beat * spb]. *)
Definition metronome_check (spb : Q) (ts : Z) (elapsed : Q) (m : Metro) : Metro * option Tick :=
  if Qleb (next_beat m) elapsed then
    ({| metro_beat := metro_beat m + 1;
        next_beat := inject_Z (metro_beat m + 1) * spb |},
     Some {| tick_b := metro_beat m mod ts; tick_bar := metro_beat m / ts;
             tick_elapsed := elapsed |})
  else (m, None).

(** The ticks produced by a sequence of elapsed-time queries. *)
Fixpoint run_queries (spb : Q) (ts : Z) (m : Metro) (qs : list Q) : list Tick :=
  match qs with
  | [] => []
  | e :: rest =>
      let '(m', t) := metronome_check spb ts e m in
      match t with
      | Some t => t :: run_queries spb ts m' rest
      | None => run_queries spb ts m' rest
      end
  end.

(** The beat index a tick stands for. *)
Definition beat_index (ts : Z) (t : Tick) : Z := (tick_bar t * ts + tick_b t)%Z.

(** ** Phases of a word *)

Inductive Phase := FadeIn | Hold | FadeOut | Gap.

Definition Phase_eqb (a b : Phase) : bool :=
  match a, b with
  | FadeIn, FadeIn | Hold, Hold | FadeOut, FadeOut | Gap, Gap => true
  | _, _ => false
  end.

(** ** LiveScheduler

    One pass of [_playback_loop] against an ideal clock: [time.sleep(d)]
    takes exactly [d] and every other statement takes no time.  The run is
    uninterrupted ([is_playing] stays true, [is_paused] stays false).  The
    calls posted with [root.after] are recorded as events, each display
    call tagged with the phase of the word that posts it. *)

Inductive LiveEvent :=
| Display (ph : Phase) (at_time : Q) (word : string) (opacity : Q)
          (prev_word : option string) (prev_opacity : Q)
| Clear (at_time : Q)
| BeatTick (t : Tick).

Record LiveState := mkLive { now : Q; metro : Metro; events : list LiveEvent }.

Definition spb (s : Settings) : Q := 60 / inject_Z (bpm s).

Definition fade_steps : Z := 20.

Definition emit (e : LiveEvent) (st : LiveState) : LiveState :=
  {| now := now st; metro := metro st; events := events st ++ [e] |}.

(** [time.sleep(d)] on the ideal clock. *)
Definition sleep (d : Q) (st : LiveState) : LiveState :=
  {| now := Qred (now st + d); metro := metro st; events := events st |}.

Definition metronome_poll (s : Settings) (playback_start_time : Q) (st : LiveState) : LiveState :=
  let elapsed := Qred (now st - playback_start_time) in
  let '(m', t) := metronome_check (spb s) (time_signature_num s) elapsed (metro st) in
  let st' := {| now := now st; metro := m'; events := events st |} in
  match t with
  | Some t => emit (BeatTick t) st'
  | None => st'
  end.

(** [while time.time() < end_time: <metronome check>; time.sleep(0.001)] *)
Fixpoint poll_loop (fuel : nat) (s : Settings) (start end_time : Q) (st : LiveState) : LiveState :=
  match fuel with
  | O => st
  | S k =>
      if Qltb (now st) end_time
      then poll_loop k s start end_time (sleep (1 # 1000) (metronome_poll s start st))
      else st
  end.

(** Number of one-millisecond polls after which the clock has reached
    [end_time] (see [busy_wait_reaches]). *)
Definition poll_fuel (st : LiveState) (end_time : Q) : nat :=
  Z.to_nat (Qceiling ((end_time - now st) * 1000)).

Definition busy_wait (s : Settings) (start dur : Q) (st : LiveState) : LiveState :=
  let end_time := now st + dur in
  poll_loop (poll_fuel st end_time) s start end_time st.

Definition fade_in_step (s : Settings) (start : Q) (word : string) (prev_word : option string)
    (st : LiveState) (i : Z) : LiveState :=
  let st := metronome_poll s start st in
  let op := inject_Z i / inject_Z fade_steps in
  let st :=
    if Qltb (gap s) 0 && truthy prev_word
    then emit (Display FadeIn (now st) word op prev_word (1 - op)) st
    else emit (Display FadeIn (now st) word op None 0) st in
  sleep (fade_in s / inject_Z fade_steps) st.

Definition fade_out_step (s : Settings) (start : Q) (word : string)
    (st : LiveState) (i : Z) : LiveState :=
  let st := metronome_poll s start st in
  let op := 1 - inject_Z i / inject_Z fade_steps in
  let st := emit (Display FadeOut (now st) word op None 0) st in
  sleep (fade_out s / inject_Z fade_steps) st.

(** The body of the word loop, after the pause and bar checks. *)
Definition live_word (s : Settings) (start : Q) (word : string) (prev_word : option string)
    (st : LiveState) : LiveState :=
  let st1 :=
    if Qltb 0 (fade_in s)
    then fold_left (fade_in_step s start word prev_word) (range (fade_steps + 1)) st
    else emit (Display Hold (now st) word 1 None 0) st in
  let main_dur := py_max (1 # 100) (word_dur s - fade_in s - fade_out s) in
  let st2 := busy_wait s start main_dur st1 in
  let st3 :=
    if Qltb 0 (fade_out s) && Qleb 0 (gap s)
    then fold_left (fade_out_step s start word) (range (fade_steps + 1)) st2
    else st2 in
  if Qltb 0 (gap s)
  then busy_wait s start (gap s) (emit (Clear (now st3)) st3)
  else st3.

(** The word loop of one pass; [ws] are the words from [start_idx] on and
    [prev] is the word before the head of [ws] within this pass. *)
Fixpoint live_words (s : Settings) (loop_start bar_duration : Q) (prev : option string)
    (ws : list string) (st : LiveState) : LiveState :=
  match ws with
  | [] => st
  | w :: rest =>
      if is_bars s && Qleb bar_duration (now st - loop_start)
      then st
      else live_words s loop_start bar_duration (Some w) rest (live_word s loop_start w prev st)
  end.

(** One pass started at clock value [loop_start]; [start_word >= 1] as the
    slider guarantees. *)
Definition live_pass (s : Settings) (loop_start : Q) : LiveState :=
  let bar_duration := inject_Z (loop_bars s) * get_bar_seconds s in
  live_words s loop_start bar_duration None
    (skipn (Z.to_nat (start_word s - 1)) (words s))
    {| now := loop_start; metro := metro_init; events := [] |}.

(** ** FrameExporter *)

(** A written frame: the arguments [_render_frame] was called with, tagged
    with the phase that wrote it. *)
Record Frame := mkFrame {
  f_phase : Phase;
  f_word : option string;
  f_op : Q;
  f_prev : option string;
  f_pop : Q
}.

Record ExportState := mkExport { frame_count : Z; loop_frames : Z; written : list Frame }.

Definition fps (s : Settings) : Q := inject_Z (export_fps s).

Definition fade_in_f (s : Settings) : Z := py_int (fade_in s * fps s).
Definition fade_out_f (s : Settings) : Z := py_int (fade_out s * fps s).
Definition word_f (s : Settings) : Z := py_int (word_dur s * fps s).
Definition gap_f (s : Settings) : Z :=
  if Qltb 0 (gap s) then py_int (Qabs (gap s) * fps s) else 0%Z.
Definition main_f (s : Settings) : Z := Z.max 1 (word_f s - fade_in_f s - fade_out_f s).

(** [bar_limit]; [None] is [float('inf')]. *)
Definition bar_limit (s : Settings) : option Z :=
  if is_bars s
  then Some (py_int (inject_Z (loop_bars s) * get_bar_seconds s * fps s))
  else None.

Definition loops (s : Settings) : Z :=
  if loop_enabled s then (if loop_infinite s then 1%Z else loop_times s) else 1%Z.

(** [loop_frames >= bar_limit] *)
Definition reached (limit : option Z) (st : ExportState) : bool :=
  match limit with
  | Some l => (l <=? loop_frames st)%Z
  | None => false
  end.

(** [write_frame(frame); loop_frames += 1] *)
Definition write_frame (f : Frame) (st : ExportState) : ExportState :=
  {| frame_count := frame_count st + 1;
     loop_frames := loop_frames st + 1;
     written := written st ++ [f] |}.

(** [for i in range(n): if loop_frames >= bar_limit: break; write ...] *)
Fixpoint for_frames (limit : option Z) (body : Z -> Frame) (idxs : list Z)
    (st : ExportState) : ExportState :=
  match idxs with
  | [] => st
  | i :: rest =>
      if reached limit st then st
      else for_frames limit body rest (write_frame (body i) st)
  end.

Definition fade_in_frame (s : Settings) (word : string) (prev_word : option string) (i : Z) : Frame :=
  let op := if (0 <? fade_in_f s)%Z then inject_Z i / inject_Z (fade_in_f s) else 1 in
  let pop := if Qltb (gap s) 0 && truthy prev_word then 1 - op else 0 in
  mkFrame FadeIn (Some word) op prev_word pop.

Definition fade_out_frame (s : Settings) (word : string) (i : Z) : Frame :=
  let op := if (0 <? fade_out_f s)%Z then 1 - inject_Z i / inject_Z (fade_out_f s) else 0 in
  mkFrame FadeOut (Some word) op None 0.

(** The body of the exporter's word loop. *)
Definition export_word (s : Settings) (limit : option Z) (word : string)
    (prev_word : option string) (st : ExportState) : ExportState :=
  let st1 := for_frames limit (fade_in_frame s word prev_word) (range (fade_in_f s)) st in
  let st2 := for_frames limit (fun _ => mkFrame Hold (Some word) 1 None 0) (range (main_f s)) st1 in
  let st3 :=
    if Qleb 0 (gap s)
    then for_frames limit (fade_out_frame s word) (range (fade_out_f s)) st2
    else st2 in
  if Qltb 0 (gap s)
  then for_frames limit (fun _ => mkFrame Gap (Some EmptyString) 0 None 0) (range (gap_f s)) st3
  else st3.

(** [while word_idx < len(words_to_export) and loop_frames < bar_limit] *)
Fixpoint export_words (s : Settings) (limit : option Z) (prev : option string)
    (ws : list string) (st : ExportState) : ExportState :=
  match ws with
  | [] => st
  | w :: rest =>
      if reached limit st then st
      else export_words s limit (Some w) rest (export_word s limit w prev st)
  end.

(** The slice [l[i:]]. *)
Definition slice_from {A} (i : Z) (l : list A) : list A :=
  if (0 <=? i)%Z then skipn (Z.to_nat i) l
  else skipn (Z.to_nat (len l + i)) l.

Definition words_to_export (s : Settings) : list string :=
  slice_from (start_word s - 1) (words s).

(** One iteration of [for loop in range(loops)]. *)
Definition export_pass (s : Settings) (st : ExportState) : ExportState :=
  export_words s (bar_limit s) None (words_to_export s)
    {| frame_count := frame_count st; loop_frames := 0; written := written st |}.

Definition export_init : ExportState :=
  {| frame_count := 0; loop_frames := 0; written := [] |}.

(** The frames [_export_thread] writes, in order. *)
Definition _export_thread (s : Settings) : ExportState :=
  fold_left (fun st _ => export_pass s st) (range (loops s)) export_init.

(** What the raster library is asked to draw for a written frame. *)
Definition render (s : Settings) (fg bg : RGB) (f : Frame) : list (string * Fill) :=
  _render_frame (f_word f) (f_op f) (f_prev f) (f_pop f) bg fg (export_transparent s).

(** The application's defaults ([__init__]), with a word list. *)
Definition defaults (ws : list string) : Settings :=
  {| bpm := 120; word_note_value := "1/4"; fade_in_note := "1/16";
     fade_out_note := "1/16"; gap_note := "0"; gap_negative := false;
     time_signature_num := 4; loop_enabled := false; loop_mode := "all_words";
     loop_bars := 4; loop_times := 2; loop_infinite := false; start_word := 1;
     export_fps := 30; export_transparent := false;
     font_color := "#FFFFFF"; bg_color := "#000000"; words := ws |}.


(** Frames of one uncut word, the same for every word. *)
Definition frames_per_word (s : Settings) : nat :=
  (Z.to_nat (fade_in_f s) + Z.to_nat (main_f s)
   + (if Qleb 0 (gap s) then Z.to_nat (fade_out_f s) else 0)
   + (if Qltb 0 (gap s) then Z.to_nat (gap_f s) else 0))%nat.

(** Two words a quarter note each, overlapping by an eighth note. *)
Definition overlap_settings : Settings :=
  {| bpm := 120; word_note_value := "1/4"; fade_in_note := "1/16";
     fade_out_note := "1/16"; gap_note := "1/8"; gap_negative := true;
     time_signature_num := 4; loop_enabled := false; loop_mode := "all_words";
     loop_bars := 4; loop_times := 2; loop_infinite := false; start_word := 1;
     export_fps := 30; export_transparent := false;
     font_color := "#FFFFFF"; bg_color := "#000000"; words := ["one"; "two"]%string |}.

(** ByBars example: one bar of 4/4 at 120 bpm (2 s), five half-note
    words (1 s each), looping without end. *)
Definition bars_settings : Settings :=
  {| bpm := 120; word_note_value := "1/2"; fade_in_note := "1/16";
     fade_out_note := "1/16"; gap_note := "0"; gap_negative := false;
     time_signature_num := 4; loop_enabled := true; loop_mode := "bars";
     loop_bars := 1; loop_times := 2; loop_infinite := true; start_word := 1;
     export_fps := 30; export_transparent := false;
     font_color := "#FFFFFF"; bg_color := "#000000";
     words := ["one"; "two"; "three"; "four"; "five"]%string |}.

(** A bar of 1/4 at 120 bpm (0.5 s) against a whole-note word (2 s) that
    fades out over a quarter note. *)
Definition overrun_settings : Settings :=
  {| bpm := 120; word_note_value := "1"; fade_in_note := "0";
     fade_out_note := "1/4"; gap_note := "0"; gap_negative := false;
     time_signature_num := 1; loop_enabled := true; loop_mode := "bars";
     loop_bars := 1; loop_times := 1; loop_infinite := false; start_word := 1;
     export_fps := 30; export_transparent := false;
     font_color := "#FFFFFF"; bg_color := "#000000"; words := ["a"; "b"]%string |}.

(** A fade-out shorter than one frame: a 1/32 note at 300 bpm is 0.025 s,
    0.75 frames at 30 fps. *)
Definition subframe_settings : Settings :=
  {| bpm := 300; word_note_value := "1/4"; fade_in_note := "0";
     fade_out_note := "1/32"; gap_note := "0"; gap_negative := false;
     time_signature_num := 4; loop_enabled := false; loop_mode := "all_words";
     loop_bars := 4; loop_times := 2; loop_infinite := false; start_word := 1;
     export_fps := 30; export_transparent := false;
     font_color := "#FFFFFF"; bg_color := "#000000"; words := ["a"]%string |}.

Definition is_fade_out_event (e : LiveEvent) : bool :=
  match e with
  | Display FadeOut _ _ _ _ _ => true
  | _ => false
  end.

Definition is_fade_out_frame (f : Frame) : bool := Phase_eqb (f_phase f) FadeOut.

(** The words shown by the display events of a trace, without repeats of
    the same word in a row. *)
Fixpoint shown_words (last : option string) (es : list LiveEvent) : list string :=
  match es with
  | [] => []
  | Display _ _ w _ _ _ :: rest =>
      if match last with Some l => String.eqb l w | None => false end
      then shown_words last rest
      else w :: shown_words (Some w) rest
  | _ :: rest => shown_words last rest
  end.

(** Display events posted at or after clock value [t]. *)
Definition displayed_from (t : Q) (e : LiveEvent) : bool :=
  match e with
  | Display _ at_time _ _ _ _ => Qleb t at_time
  | _ => false
  end.

(** [st'] is [st] with more events posted, each satisfying [P]. *)
Definition appends (P : LiveEvent -> Prop) (st st' : LiveState) : Prop :=
  exists added, events st' = events st ++ added /\ Forall P added.

Definition is_tick (e : LiveEvent) : Prop :=
  match e with BeatTick _ => True | _ => False end.

(** What a display call of the word loop looks like, per phase. *)
Definition word_event (s : Settings) (word : string) (prev_word : option string)
    (e : LiveEvent) : Prop :=
  match e with
  | BeatTick _ => True
  | Clear _ => 0 < gap s
  | Display FadeIn _ w o pw po =>
      w = word /\ 0 < fade_in s /\
      ((gap s < 0 /\ truthy prev_word = true /\ pw = prev_word /\ po = 1 - o) \/
       (~ (gap s < 0 /\ truthy prev_word = true) /\ pw = None /\ po = 0))
  | Display Hold _ w o pw po => w = word /\ o = 1 /\ pw = None /\ po = 0
  | Display FadeOut _ w o pw po => w = word /\ 0 < fade_out s /\ 0 <= gap s /\ pw = None /\ po = 0
  | Display Gap _ _ _ _ _ => False
  end.

(** What a written frame of a word looks like, per phase. *)
Definition frame_ok (s : Settings) (word : string) (prev_word : option string)
    (f : Frame) : Prop :=
  match f_phase f with
  | FadeIn =>
      f_word f = Some word /\ f_prev f = prev_word /\ (0 < fade_in_f s)%Z /\
      0 <= f_op f /\ f_op f < 1 /\
      ((gap s < 0 /\ truthy prev_word = true /\ f_pop f = 1 - f_op f) \/
       (~ (gap s < 0 /\ truthy prev_word = true) /\ f_pop f = 0))
  | Hold => f_word f = Some word /\ f_op f = 1 /\ f_prev f = None /\ f_pop f = 0
  | FadeOut =>
      f_word f = Some word /\ 0 <= gap s /\ (0 < fade_out_f s)%Z /\
      f_prev f = None /\ f_pop f = 0
  | Gap => 0 < gap s /\ f_word f = Some EmptyString /\ f_prev f = None /\ f_pop f = 0
  end.

(** The condition under which a fade-in is a cross-dissolve. *)
Definition cross_dissolves (s : Settings) (prev_word : option string) : Prop :=
  gap s < 0 /\ truthy prev_word = true.

(** A live fade-in step satisfies the cross-fade rule for a word whose
    predecessor in the pass is [prev_word]. *)
Definition live_cross_fade_ok (s : Settings) (prev_word : option string) (e : LiveEvent) : Prop :=
  match e with
  | Display FadeIn _ _ o pw po =>
      (pw <> None <-> cross_dissolves s prev_word) /\
      (pw <> None -> pw = prev_word /\ o + po == 1)
  | _ => True
  end.

(** An exported fade-in frame satisfies the cross-fade rule; the previous
    word is drawn exactly when its opacity argument is positive. *)
Definition export_cross_fade_ok (s : Settings) (prev_word : option string) (f : Frame) : Prop :=
  f_phase f = FadeIn ->
  (0 < f_pop f <-> cross_dissolves s prev_word) /\
  (0 < f_pop f -> f_prev f = prev_word /\ f_op f + f_pop f == 1).

(** [beatIndex = floor(elapsed / secondsPerBeat)] *)
Definition beat_of (spb elapsed : Q) : Z := Qfloor (elapsed / spb).

(** Queries that never go back in time and never jump over a whole beat:
    each is at or after the previous one and at most one beat index
    further. *)
Fixpoint no_beat_skipped (spb prev : Q) (qs : list Q) : Prop :=
  match qs with
  | [] => True
  | e :: rest =>
      prev <= e /\ (beat_of spb e <= beat_of spb prev + 1)%Z /\ no_beat_skipped spb e rest
  end.

(** [a; a+1; ...], [n] numbers. *)
Fixpoint count_from (a : Z) (n : nat) : list Z :=
  match n with
  | O => []
  | S k => a :: count_from (a + 1) k
  end.

(** ** Vocabulary of the statements *)

(** Every channel is in 0..255. *)
Definition byte_range (c : RGB) : Prop :=
  let '(r, g, b) := c in (0 <= r <= 255)%Z /\ (0 <= g <= 255)%Z /\ (0 <= b <= 255)%Z.

(** [fmt02x n] is two hexadecimal digits, not starting with [#], that read
    back as [n]. *)
Definition fmt02x_ok (n : Z) : bool :=
  match fmt02x n with
  | String c1 (String c2 EmptyString) =>
      negb (Ascii.eqb c1 "#")
      && match hex_digit c1, hex_digit c2 with
         | Some d1, Some d2 => (16 * d1 + d2 =? n)%Z
         | _, _ => false
         end
  | _ => false
  end.

(** Reading back the colour string the live path hands to the canvas. *)
Definition canvas_fill (item : string * string) : string * option Fill :=
  (fst item, option_map FillRGB (hex_to_rgb (snd item))).

(** The fill the export path hands to the raster library. *)
Definition raster_fill (item : string * Fill) : string * option Fill :=
  (fst item, Some (snd item)).

(** Frames a [for] loop over [n] indices writes from state [st]. *)
Definition budget (limit : option Z) (st : ExportState) (n : nat) : nat :=
  match limit with
  | None => n
  | Some l => Nat.min n (Z.to_nat (l - loop_frames st))
  end.

(** Frames already written are never altered, only extended. *)
Definition extends (st st' : ExportState) (added : list Frame) : Prop :=
  written st' = written st ++ added /\
  loop_frames st' = (loop_frames st + len added)%Z /\
  frame_count st' = (frame_count st + len added)%Z.

(** The frames of one word when no bar limit cuts them short. *)
Definition word_frames (s : Settings) (word : string) (prev_word : option string) : list Frame :=
  map (fade_in_frame s word prev_word) (range (fade_in_f s)) ++
  map (fun _ => mkFrame Hold (Some word) 1 None 0) (range (main_f s)) ++
  (if Qleb 0 (gap s) then map (fade_out_frame s word) (range (fade_out_f s)) else []) ++
  (if Qltb 0 (gap s)
   then map (fun _ => mkFrame Gap (Some EmptyString) 0 None 0) (range (gap_f s))
   else []).

(** The frames of the words [ws] in sequence, uncut. *)
Fixpoint pass_frames (s : Settings) (prev : option string) (ws : list string) : list Frame :=
  match ws with
  | [] => []
  | w :: rest => word_frames s w prev ++ pass_frames s (Some w) rest
  end.

(** [st'] is [st] after writing as much of [full] as the limit allows. *)
Definition emits (limit : option Z) (st st' : ExportState) (full : list Frame) : Prop :=
  extends st st' (firstn (budget limit st (List.length full)) full).

(** The frames one pass writes: the uncut frames of the words, cut at the
    bar limit. *)
Definition pass_written (s : Settings) : list Frame :=
  let full := pass_frames s None (words_to_export s) in
  firstn (budget (bar_limit s) export_init (List.length full)) full.

(** What a tick reports, against the beat index it stands for. *)
Definition tick_ok (spb : Q) (ts : Z) (t : Tick) : Prop :=
  beat_of spb (tick_elapsed t) = beat_index ts t /\
  tick_b t = (beat_index ts t mod ts)%Z /\
  tick_bar t = (beat_index ts t / ts)%Z.


(** The same settings with looping switched off. *)
Definition without_loop (s : Settings) : Settings :=
  {| bpm := bpm s; word_note_value := word_note_value s; fade_in_note := fade_in_note s;
     fade_out_note := fade_out_note s; gap_note := gap_note s; gap_negative := gap_negative s;
     time_signature_num := time_signature_num s; loop_enabled := false;
     loop_mode := loop_mode s; loop_bars := loop_bars s; loop_times := loop_times s;
     loop_infinite := loop_infinite s; start_word := start_word s;
     export_fps := export_fps s; export_transparent := export_transparent s;
     font_color := font_color s; bg_color := bg_color s; words := words s |}.

Definition is_hold_frame (f : Frame) : bool := Phase_eqb (f_phase f) Hold.

(** The opacity a written frame may carry, per phase. *)
Definition frame_opacity_ok (f : Frame) : Prop :=
  match f_phase f with
  | FadeIn => 0 <= f_op f /\ f_op f < 1
  | Hold => f_op f = 1
  | FadeOut => 0 < f_op f /\ f_op f <= 1
  | Gap => f_op f = 0 /\ f_word f = Some EmptyString
  end.

(** The opacities of the display steps of phase [ph], in posting order. *)
Definition phase_opacities (ph : Phase) (es : list LiveEvent) : list Q :=
  flat_map (fun e => match e with
                     | Display ph' _ _ o _ _ => if Phase_eqb ph' ph then [o] else []
                     | _ => []
                     end) es.

(** The loop [while self.is_playing] of [_playback_loop], after the
    count-in and without a stop: the final state of every pass played, each
    pass starting when the previous one ends.  [loop_current] is the loop
    counter on entry ([play] sets it to 0).  [None]: [fuel] passes did not
    end the playback. *)
Fixpoint playback_passes (fuel : nat) (s : Settings) (loop_current : Z) (t : Q)
    : option (list LiveState) :=
  match fuel with
  | O => None
  | S k =>
      let st := live_pass s t in
      if negb (loop_enabled s) then Some [st]
      else
        let loop_current := (loop_current + 1)%Z in
        if negb (loop_infinite s) && (loop_times s <=? loop_current)%Z then Some [st]
        else option_map (cons st) (playback_passes k s loop_current (now st))
  end.

(** ** Text loading, navigation and transport

    Strings stand for Python [str] values whose code points are below 256,
    one character per code point. *)

(** [str.isspace] on the code points below 256. *)
Definition is_space (c : ascii) : bool :=
  let n := nat_of_ascii c in
  ((9 <=? n)%nat && (n <=? 13)%nat) || ((28 <=? n)%nat && (n <=? 32)%nat)
  || (n =? 133)%nat || (n =? 160)%nat.

(** [str.split()] scanning [t] with the word read so far. *)
Fixpoint split_from (word : string) (t : string) : list string :=
  match t with
  | EmptyString => match word with EmptyString => [] | _ => [word] end
  | String c r =>
      if is_space c
      then match word with
           | EmptyString => split_from EmptyString r
           | _ => word :: split_from EmptyString r
           end
      else split_from (word ++ String c EmptyString) r
  end.

(** [str.split()]: runs of whitespace separate the words. *)
Definition py_split (t : string) : list string := split_from EmptyString t.

Fixpoint lstrip (t : string) : string :=
  match t with
  | String c r => if is_space c then lstrip r else t
  | EmptyString => EmptyString
  end.

Fixpoint rstrip (t : string) : string :=
  match t with
  | EmptyString => EmptyString
  | String c r =>
      match rstrip r with
      | EmptyString => if is_space c then EmptyString else String c EmptyString
      | r' => String c r'
      end
  end.

(** [str.strip()] *)
Definition strip (t : string) : string := rstrip (lstrip t).

(** [' '.join(ws)] *)
Fixpoint join_space (ws : list string) : string :=
  match ws with
  | [] => EmptyString
  | [w] => w
  | w :: rest => w ++ String " " (join_space rest)
  end.

Fixpoint has_space (w : string) : bool :=
  match w with
  | EmptyString => false
  | String c r => is_space c || has_space r
  end.

(** A word as [str.split()] produces it: not empty, no whitespace. *)
Definition word_ok (w : string) : Prop := w <> EmptyString /\ has_space w = false.

Definition set_start_word (v : Z) (s : Settings) : Settings :=
  {| bpm := bpm s; word_note_value := word_note_value s; fade_in_note := fade_in_note s;
     fade_out_note := fade_out_note s; gap_note := gap_note s; gap_negative := gap_negative s;
     time_signature_num := time_signature_num s; loop_enabled := loop_enabled s;
     loop_mode := loop_mode s; loop_bars := loop_bars s; loop_times := loop_times s;
     loop_infinite := loop_infinite s; start_word := v;
     export_fps := export_fps s; export_transparent := export_transparent s;
     font_color := font_color s; bg_color := bg_color s; words := words s |}.

Definition set_words (ws : list string) (s : Settings) : Settings :=
  {| bpm := bpm s; word_note_value := word_note_value s; fade_in_note := fade_in_note s;
     fade_out_note := fade_out_note s; gap_note := gap_note s; gap_negative := gap_negative s;
     time_signature_num := time_signature_num s; loop_enabled := loop_enabled s;
     loop_mode := loop_mode s; loop_bars := loop_bars s; loop_times := loop_times s;
     loop_infinite := loop_infinite s; start_word := start_word s;
     export_fps := export_fps s; export_transparent := export_transparent s;
     font_color := font_color s; bg_color := bg_color s; words := ws |}.

(** The part of [self] the navigation and transport callbacks touch:
    the settings, the contents of the text widget, the upper end of the
    start slider, the transport flags and counters, and the number of
    playback threads started so far. *)
Record Player := mkPlayer {
  cfg : Settings;
  text_input : string;
  slider_to : Z;
  is_playing : bool;
  is_paused : bool;
  current_word_index : Z;
  loop_current : Z;
  threads_started : nat
}.

Definition on_start_change (val : Q) (p : Player) : Player :=
  let idx := py_int val in
  let cfg' := set_start_word idx (cfg p) in
  let in_range :=
    match words (cfg p) with
    | [] => false
    | _ => (0 <? idx)%Z && (idx <=? len (words (cfg p)))%Z
    end in
  {| cfg := cfg'; text_input := text_input p; slider_to := slider_to p;
     is_playing := is_playing p; is_paused := is_paused p;
     current_word_index := if in_range then (idx - 1)%Z else current_word_index p;
     loop_current := loop_current p; threads_started := threads_started p |}.

Definition adjust_start (delta : Z) (p : Player) : Player :=
  let upper := match words (cfg p) with [] => 1%Z | _ => len (words (cfg p)) end in
  let new_val := Z.max 1 (Z.min upper (start_word (cfg p) + delta)) in
  on_start_change (inject_Z new_val) p.

Definition goto_first (p : Player) : Player := on_start_change 1 p.

Definition goto_last (p : Player) : Player :=
  match words (cfg p) with
  | [] => p
  | _ => on_start_change (inject_Z (len (words (cfg p)))) p
  end.

Definition load_text (p : Player) : Player :=
  let ws := py_split (strip (text_input p)) in
  let p1 :=
    {| cfg := set_words ws (cfg p); text_input := text_input p; slider_to := slider_to p;
       is_playing := is_playing p; is_paused := is_paused p;
       current_word_index := 0; loop_current := loop_current p;
       threads_started := threads_started p |} in
  match ws with
  | [] => p1
  | _ =>
      on_start_change 1
        {| cfg := cfg p1; text_input := text_input p1; slider_to := len ws;
           is_playing := is_playing p1; is_paused := is_paused p1;
           current_word_index := current_word_index p1; loop_current := loop_current p1;
           threads_started := threads_started p1 |}
  end.

Definition play (p : Player) : Player :=
  let p := match words (cfg p) with [] => load_text p | _ => p end in
  match words (cfg p) with
  | [] => p
  | _ =>
      if is_paused p then
        {| cfg := cfg p; text_input := text_input p; slider_to := slider_to p;
           is_playing := is_playing p; is_paused := false;
           current_word_index := current_word_index p; loop_current := loop_current p;
           threads_started := threads_started p |}
      else if is_playing p then p
      else
        {| cfg := cfg p; text_input := text_input p; slider_to := slider_to p;
           is_playing := true; is_paused := false;
           current_word_index := (start_word (cfg p) - 1)%Z; loop_current := 0;
           threads_started := S (threads_started p) |}
  end.

Definition pause (p : Player) : Player :=
  {| cfg := cfg p; text_input := text_input p; slider_to := slider_to p;
     is_playing := is_playing p; is_paused := true;
     current_word_index := current_word_index p; loop_current := loop_current p;
     threads_started := threads_started p |}.

Definition stop (p : Player) : Player :=
  {| cfg := cfg p; text_input := text_input p; slider_to := slider_to p;
     is_playing := false; is_paused := false;
     current_word_index := (start_word (cfg p) - 1)%Z; loop_current := 0;
     threads_started := threads_started p |}.

Definition on_seek (val : Q) (p : Player) : Player :=
  match words (cfg p) with
  | [] => p
  | _ =>
      {| cfg := cfg p; text_input := text_input p; slider_to := slider_to p;
         is_playing := is_playing p; is_paused := is_paused p;
         current_word_index := py_int val; loop_current := loop_current p;
         threads_started := threads_started p |}
  end.

(** What the user can do to the player between two callbacks.  The start
    slider delivers values between its ends, 1 and [slider_to]. *)
Inductive UiOp :=
| EditText (t : string)
| LoadText
| SliderMove (val : Q)
| AdjustStart (delta : Z)
| GotoFirst
| GotoLast
| Play
| Pause
| Stop
| Seek (val : Q).

Definition run_op (p : Player) (op : UiOp) : Player :=
  match op with
  | EditText t =>
      {| cfg := cfg p; text_input := t; slider_to := slider_to p;
         is_playing := is_playing p; is_paused := is_paused p;
         current_word_index := current_word_index p; loop_current := loop_current p;
         threads_started := threads_started p |}
  | LoadText => load_text p
  | SliderMove val =>
      if Qleb 1 val && Qleb val (inject_Z (slider_to p)) then on_start_change val p else p
  | AdjustStart delta => adjust_start delta p
  | GotoFirst => goto_first p
  | GotoLast => goto_last p
  | Play => play p
  | Pause => pause p
  | Stop => stop p
  | Seek val => on_seek val p
  end.

(** The player as [__init__] leaves it, with the given text typed in. *)
Definition player_init (t : string) : Player :=
  {| cfg := defaults []; text_input := t; slider_to := 1;
     is_playing := false; is_paused := false; current_word_index := 0;
     loop_current := 0; threads_started := 0 |}.

(** The start index is a valid 1-based position whenever words are loaded,
    and the slider spans them. *)
Definition nav_ok (p : Player) : Prop :=
  Forall word_ok (words (cfg p)) /\
  (words (cfg p) <> [] ->
   (1 <= start_word (cfg p) <= len (words (cfg p)))%Z /\
   slider_to p = len (words (cfg p))).

(** [progress] as the exporter computes it before each word. *)
Definition export_progress (loop word_idx nloops nwords : Z) : Z :=
  py_int (inject_Z (loop * nwords + word_idx) / inject_Z (nloops * nwords) * 100).

(** Every character is a hexadecimal digit. *)
Fixpoint all_hex (t : string) : bool :=
  match t with
  | EmptyString => true
  | String c r => match hex_digit c with Some _ => all_hex r | None => false end
  end.

(** ** Binary64 rounding made explicit *)

(** [blend_channel] computes with exact rationals.  The code computes in
    binary64: each of the four operations of
    [int(f * opacity + b * (1 - opacity))] returns its exact result rounded
    to a representable number, the channels converting exactly.
    [blend_channel_fl rnd] is the same expression with the rounding [rnd]
    written out where the machine rounds. *)
Definition blend_channel_fl (rnd : Q -> Q) (f b : Z) (opacity : Q) : Z :=
  py_int (rnd (rnd (inject_Z f * opacity) + rnd (inject_Z b * rnd (1 - opacity)))).

(** What is used of a rounding.  Binary64 round-to-nearest has these
    properties: it is monotone, it leaves the integers below 2^53 unchanged,
    and on [0, 512] it moves a value by at most half a unit in the last
    place, less than 2^-44.  So has exact arithmetic (no rounding at all). *)
Record rounding (rnd : Q -> Q) : Prop := mkRounding {
  rnd_mono : forall x y, x <= y -> rnd x <= rnd y;
  rnd_int : forall n : Z, (0 <= n <= 255)%Z -> rnd (inject_Z n) == inject_Z n;
  rnd_near : forall x, 0 <= x <= 512 -> Qabs (rnd x - x) <= 1 # 1000000000
}.

(** A rounding that does round: to the nearest multiple of 2^-40. *)
Definition grid_round (x : Q) : Q :=
  inject_Z (Qfloor (x * 1099511627776 + (1 # 2))) * (1 # 1099511627776).

(** ** Further vocabulary *)



(** The bar limit leaves room for all the frames of a word that starts
    with [lf] frames of the pass written. *)
Definition uncut (s : Settings) (limit : option Z) (lf : Z) : Prop :=
  match limit with
  | None => True
  | Some l => (lf + Z.of_nat (frames_per_word s) <= l)%Z
  end.

(** The bar limit is not reached before the fade-out loop of a word that
    starts with [lf] frames of the pass written. *)
Definition fade_out_in_budget (s : Settings) (limit : option Z) (lf : Z) : Prop :=
  match limit with
  | None => True
  | Some l => (lf + Z.max 0 (fade_in_f s) + main_f s < l)%Z
  end.


(** * Properties *)

(** ** Numeric helpers *)

Lemma Qltb_lt (a b : Q) : Qltb a b = true <-> a < b.
Proof.
  unfold Qltb. rewrite Qlt_alt. destruct (Qcompare a b); split; congruence.
Qed.

Lemma Qltb_ge (a b : Q) : Qltb a b = false <-> b <= a.
Proof.
  split; intros H.
  - apply Qnot_lt_le. intros Hlt. apply Qltb_lt in Hlt. congruence.
  - destruct (Qltb a b) eqn:E; [|reflexivity].
    apply Qltb_lt in E. exfalso. apply (Qlt_not_le _ _ E H).
Qed.

Lemma Qleb_le (a b : Q) : Qleb a b = true <-> a <= b.
Proof.
  unfold Qleb. rewrite Qle_alt. destruct (Qcompare a b); split; congruence.
Qed.

Lemma Qleb_gt (a b : Q) : Qleb a b = false <-> b < a.
Proof.
  split; intros H.
  - apply Qnot_le_lt. intros Hle. apply Qleb_le in Hle. congruence.
  - destruct (Qleb a b) eqn:E; [|reflexivity].
    apply Qleb_le in E. exfalso. apply (Qlt_not_le _ _ H E).
Qed.

Lemma py_int_floor (x : Q) : 0 <= x -> py_int x = Qfloor x.
Proof.
  destruct x as [n d]. unfold Qle, py_int, Qfloor. simpl. intros H.
  apply Z.quot_div_nonneg; lia.
Qed.

Lemma py_int_bounds (x : Q) : 0 <= x -> inject_Z (py_int x) <= x /\ x < inject_Z (py_int x) + 1.
Proof.
  intros H. rewrite (py_int_floor x H). split.
  - apply Qfloor_le.
  - pose proof (Qlt_floor x) as L. rewrite inject_Z_plus in L. exact L.
Qed.

Lemma py_max_spec (a b : Q) : py_max a b == Qmax a b.
Proof.
  unfold py_max. destruct (Qltb a b) eqn:E.
  - apply Qltb_lt in E. symmetry. apply Q.max_r. lra.
  - apply Qltb_ge in E. symmetry. apply Q.max_l. exact E.
Qed.


Lemma In_range (n i : Z) : In i (range n) <-> (0 <= i < n)%Z.
Proof.
  unfold range. rewrite in_map_iff. split.
  - intros [k [<- Hk]]. apply in_seq in Hk. lia.
  - intros H. exists (Z.to_nat i). split; [lia|]. apply in_seq. lia.
Qed.

Lemma range_length (n : Z) : List.length (range n) = Z.to_nat n.
Proof. unfold range. now rewrite length_map, length_seq. Qed.

Example blend_probe : blend_color "#ff0000" "#000000" (3 # 8) = Some "#5f0000"%string.
Proof. vm_compute. reflexivity. Qed.

Example fmt_probe : (fmt02x 10, fmt02x 255, fmt02x 256, fmt02x (-1)) = ("0a", "ff", "100", "-1")%string.
Proof. vm_compute. reflexivity. Qed.

(** ** TimeModel *)

Lemma note_values_pos (note : string) (f : Q) : note_values !! note = Some f -> 0 < f.
Proof.
  unfold note_values. intros H. apply elem_of_list_to_map_2 in H.
  repeat (apply elem_of_cons in H; destruct H as [H|H];
          [inversion H; subst; reflexivity|]).
  apply elem_of_nil in H. contradiction.
Qed.

Lemma dict_get_note_pos (note : string) : 0 < dict_get note_values note 1.
Proof.
  unfold dict_get. destruct (note_values !! note) eqn:E.
  - eapply note_values_pos; eassumption.
  - reflexivity.
Qed.

Lemma note_to_seconds_nonneg (s : Settings) (note : string) :
  (0 < bpm s)%Z -> 0 <= note_to_seconds s note.
Proof.
  intros Hb. unfold note_to_seconds. destruct (String.eqb note "0"); [lra|].
  pose proof (dict_get_note_pos note) as Hp.
  assert (Hq : 0 < inject_Z (bpm s)) by (unfold Qlt; simpl; lia).
  apply Qle_shift_div_l; [exact Hq|]. lra.
Qed.

Example note_to_seconds_quarter_120 : note_to_seconds (defaults []) "1/4" == 1 # 2.
Proof. vm_compute. reflexivity. Qed.

Example get_bar_seconds_4_120 : get_bar_seconds (defaults []) == 2.
Proof. vm_compute. reflexivity. Qed.

(** A token outside the table, which the read-only note boxes never
    deliver, is taken as one quarter note. *)
Example note_to_seconds_unknown_token :
  note_to_seconds (defaults []) "none" == 1 # 2.
Proof. vm_compute. reflexivity. Qed.

(** C5.  For every bpm in 20..300 the conversion returns 0 for the token
    of no duration, which the code spells ["0"], and
    [noteFactor * 60 / bpm], a positive duration, for every other token the
    note boxes offer, with "1/4" -> 1, "1/2" -> 2, "1" -> 4 and
    "1/32" -> 1/8; in particular a quarter note at 120 bpm lasts 0.5 s.  (A
    token outside the table would be taken as one quarter note.) *)
Theorem note_to_seconds_table (s : Settings) (Hbpm : (20 <= bpm s <= 300)%Z) :
  note_to_seconds s "0" == 0 /\
  (forall note f, note_values !! note = Some f ->
     note_to_seconds s note == f * 60 / inject_Z (bpm s) /\ 0 < note_to_seconds s note) /\
  (forall note, note <> "0"%string -> note_values !! note = None ->
     note_to_seconds s note == 60 / inject_Z (bpm s)) /\
  note_values !! "1/4"%string = Some 1 /\
  note_values !! "1/2"%string = Some 2 /\
  note_values !! "1"%string = Some 4 /\
  note_values !! "1/32"%string = Some (1 # 8) /\
  note_values !! "0"%string = None /\
  (bpm s = 120%Z -> note_to_seconds s "1/4" == 1 # 2).
Proof.
  assert (Hq : 0 < inject_Z (bpm s)) by (unfold Qlt; simpl; lia).
  assert (Htab : forall note f, note_values !! note = Some f ->
            note_to_seconds s note == f * 60 / inject_Z (bpm s) /\ 0 < note_to_seconds s note).
  { intros note f Hf.
    assert (Hne : String.eqb note "0" = false).
    { destruct (String.eqb_spec note "0") as [->|]; [|reflexivity].
      vm_compute in Hf. discriminate. }
    unfold note_to_seconds, dict_get. rewrite Hne, Hf. split; [reflexivity|].
    apply note_values_pos in Hf.
    apply Qlt_shift_div_l; [exact Hq|]. lra. }
  split; [reflexivity|]. split; [exact Htab|]. split.
  - intros note Hne Hnone.
    unfold note_to_seconds, dict_get. rewrite Hnone.
    destruct (String.eqb_spec note "0") as [->|]; [contradiction|].
    field. lra.
  - repeat (split; [vm_compute; reflexivity|]).
    intros E. destruct (Htab "1/4"%string 1) as [H _]; [vm_compute; reflexivity|].
    rewrite H, E. reflexivity.
Qed.

Lemma note_to_seconds_table_witness :
  (20 <= bpm (defaults []) <= 300)%Z /\
  note_to_seconds (defaults []) "0" == 0.
Proof.
  split; [simpl; lia|].
  apply (note_to_seconds_table (defaults [])). simpl; lia.
Defined.

(** ** BlendFunction *)

Lemma lerp_bounds (f b : Z) (opacity : Q) :
  (0 <= f <= 255)%Z -> (0 <= b <= 255)%Z -> 0 <= opacity <= 1 ->
  0 <= lerp f b opacity <= 255.
Proof.
  intros [Hf0 Hf1] [Hb0 Hb1] [Ho0 Ho1]. unfold lerp.
  rewrite Zle_Qle in Hf0, Hf1, Hb0, Hb1.
  change (inject_Z 0) with 0 in *. change (inject_Z 255) with 255 in *.
  split; nra.
Qed.

Lemma blend_channel_range (f b : Z) (opacity : Q) :
  (0 <= f <= 255)%Z -> (0 <= b <= 255)%Z -> 0 <= opacity <= 1 ->
  (0 <= blend_channel f b opacity <= 255)%Z.
Proof.
  intros Hf Hb Ho. destruct (lerp_bounds f b opacity Hf Hb Ho) as [L0 L1].
  unfold blend_channel. rewrite (py_int_floor _ L0). split.
  - change 0%Z with (Qfloor 0). apply Qfloor_resp_le. exact L0.
  - change 255%Z with (Qfloor 255). apply Qfloor_resp_le. exact L1.
Qed.


Lemma hex_digit_range (c : ascii) (d : Z) : hex_digit c = Some d -> (0 <= d <= 15)%Z.
Proof.
  unfold hex_digit. intros H.
  repeat match type of H with
         | (if ?c then _ else _) = _ => destruct c eqn:?
         end; inversion H; subst; lia.
Qed.

Lemma int16_two_digits (t : string) (v : Z) :
  (String.length t <= 2)%nat -> int16 t = Some v -> (0 <= v <= 255)%Z.
Proof.
  intros Hl H. destruct t as [|c1 [|c2 [|c3 t]]]; simpl in *; try discriminate; try lia.
  - destruct (hex_digit c1) eqn:E1; [|discriminate]. inversion H; subst.
    apply hex_digit_range in E1. lia.
  - destruct (hex_digit c1) eqn:E1; [|discriminate].
    destruct (hex_digit c2) eqn:E2; [|discriminate]. inversion H; subst.
    apply hex_digit_range in E1, E2. lia.
Qed.

Lemma substring_length_le (n m : nat) (t : string) : (String.length (substring n m t) <= m)%nat.
Proof.
  revert n m. induction t as [|c t IH]; intros n m.
  - destruct n, m; simpl; lia.
  - destruct n as [|n].
    + destruct m as [|m]; simpl; [lia|]. specialize (IH 0%nat m). lia.
    + simpl. apply IH.
Qed.

(** Colours parsed from a colour string have channels in 0..255. *)
Lemma hex_to_rgb_range (h : string) (c : RGB) : hex_to_rgb h = Some c -> byte_range c.
Proof.
  unfold hex_to_rgb. intros H.
  destruct (int16 (substring 0 2 (lstrip_hash h))) as [r|] eqn:Er; [|discriminate].
  destruct (int16 (substring 2 2 (lstrip_hash h))) as [g|] eqn:Eg; [|discriminate].
  destruct (int16 (substring 4 2 (lstrip_hash h))) as [b|] eqn:Eb; [|discriminate].
  inversion H; subst. unfold byte_range.
  repeat split; eapply int16_two_digits; try eassumption; apply substring_length_le.
Qed.

Lemma fmt02x_ok_bytes : forallb fmt02x_ok (range 256) = true.
Proof. vm_compute. reflexivity. Qed.

(** A channel in 0..255 is written as two hexadecimal digits that read back
    as the same number. *)
Lemma fmt02x_byte (n : Z) :
  (0 <= n <= 255)%Z ->
  exists c1 c2 d1 d2,
    fmt02x n = String c1 (String c2 EmptyString) /\ Ascii.eqb c1 "#" = false /\
    hex_digit c1 = Some d1 /\ hex_digit c2 = Some d2 /\ (16 * d1 + d2 = n)%Z.
Proof.
  intros Hn. pose proof fmt02x_ok_bytes as H.
  rewrite forallb_forall in H. specialize (H n).
  assert (Hin : In n (range 256)) by (apply In_range; lia).
  specialize (H Hin). unfold fmt02x_ok in H.
  destruct (fmt02x n) as [|c1 [|c2 [|c3 t]]]; try discriminate.
  apply andb_true_iff in H. destruct H as [H1 H2].
  destruct (hex_digit c1) as [d1|] eqn:E1; [|discriminate].
  destruct (hex_digit c2) as [d2|] eqn:E2; [|discriminate].
  exists c1, c2, d1, d2. repeat split; auto.
  - now apply negb_true_iff in H1.
  - now apply Z.eqb_eq.
Qed.

Lemma hex_to_rgb_format_rgb (c : RGB) : byte_range c -> hex_to_rgb (format_rgb c) = Some c.
Proof.
  destruct c as [[r g] b]. intros [Hr [Hg Hb]].
  destruct (fmt02x_byte r Hr) as (r1 & r2 & dr1 & dr2 & Er & Nr & Hr1 & Hr2 & Vr).
  destruct (fmt02x_byte g Hg) as (g1 & g2 & dg1 & dg2 & Eg & Ng & Hg1 & Hg2 & Vg).
  destruct (fmt02x_byte b Hb) as (b1 & b2 & db1 & db2 & Eb & Nb & Hb1 & Hb2 & Vb).
  unfold format_rgb, hex_to_rgb. rewrite Er, Eg, Eb. simpl. rewrite Nr. simpl.
  rewrite Hr1, Hr2, Hg1, Hg2, Hb1, Hb2.
  repeat f_equal; lia.
Qed.

Lemma blend_rgb_range (fg bg : RGB) (opacity : Q) :
  byte_range fg -> byte_range bg -> 0 <= opacity <= 1 -> byte_range (blend_rgb fg bg opacity).
Proof.
  destruct fg as [[fr fg'] fb], bg as [[br bg'] bb]. intros (F1 & F2 & F3) (B1 & B2 & B3) Ho.
  simpl. repeat split; apply blend_channel_range; assumption.
Qed.

(** C8.  For every foreground and background colour, every opacity in
    [0,1] and every word, the live preview ([display_word] through
    [blend_color]) and the exporter's RGB rendering ([_render_frame])
    draw the same texts with the same blended colour: the colour string of
    the live path reads back as exactly the channel triple of the export
    path. *)
Theorem live_export_blend_agree (s : Settings) (fg bg : RGB)
    (word prev_word : option string) (op prev_op : Q)
    (Hfg : hex_to_rgb (font_color s) = Some fg)
    (Hbg : hex_to_rgb (bg_color s) = Some bg)
    (Hop : 0 <= op <= 1) (Hpop : 0 <= prev_op <= 1) :
  exists drawn,
    display_word s word op prev_word prev_op = Some drawn /\
    map canvas_fill drawn = map raster_fill (_render_frame word op prev_word prev_op bg fg false).
Proof.
  pose proof (hex_to_rgb_range _ _ Hfg) as Rf.
  pose proof (hex_to_rgb_range _ _ Hbg) as Rb.
  unfold display_word, _render_frame, blend_color. rewrite Hfg, Hbg.
  destruct (truthy prev_word && Qltb 0 prev_op), (truthy word && Qltb 0 op);
    eexists; (split; [reflexivity|]); simpl; unfold canvas_fill, raster_fill; simpl;
    rewrite ?hex_to_rgb_format_rgb by (apply blend_rgb_range; assumption); reflexivity.
Qed.

Lemma live_export_blend_agree_witness :
  exists drawn,
    display_word (defaults []) (Some "two"%string) (1 # 4) (Some "one"%string) (3 # 4) = Some drawn /\
    map canvas_fill drawn
    = map raster_fill
        (_render_frame (Some "two"%string) (1 # 4) (Some "one"%string) (3 # 4)
           (0, 0, 0)%Z (255, 255, 255)%Z false).
Proof.
  apply (live_export_blend_agree (defaults []) (255, 255, 255)%Z (0, 0, 0)%Z);
    [reflexivity | reflexivity | split; discriminate | split; discriminate].
Defined.

(** ** FrameExporter: frames per phase *)

Lemma fps_pos (s : Settings) : (0 < export_fps s)%Z -> 0 < fps s.
Proof. intros H. unfold fps, Qlt. simpl. lia. Qed.

Lemma word_dur_nonneg (s : Settings) : (0 < bpm s)%Z -> 0 <= word_dur s.
Proof. apply note_to_seconds_nonneg. Qed.

Lemma fade_in_nonneg (s : Settings) : (0 < bpm s)%Z -> 0 <= fade_in s.
Proof. apply note_to_seconds_nonneg. Qed.

Lemma fade_out_nonneg (s : Settings) : (0 < bpm s)%Z -> 0 <= fade_out s.
Proof. apply note_to_seconds_nonneg. Qed.


(** ** FrameExporter: the frame loops *)

Lemma budget_reached (limit : option Z) (st : ExportState) (n : nat) :
  reached limit st = true -> budget limit st n = 0%nat.
Proof.
  unfold reached, budget. destruct limit as [l|]; [|discriminate].
  intros H. apply Z.leb_le in H. lia.
Qed.

Lemma budget_step (limit : option Z) (st : ExportState) (f : Frame) (n : nat) :
  reached limit st = false -> budget limit st (S n) = S (budget limit (write_frame f st) n).
Proof.
  unfold reached, budget. destruct limit as [l|]; [|reflexivity].
  intros H. apply Z.leb_gt in H. cbn [write_frame loop_frames]. lia.
Qed.

Lemma for_frames_closed (limit : option Z) (body : Z -> Frame) (idxs : list Z) (st : ExportState) :
  for_frames limit body idxs st =
  {| frame_count := frame_count st + Z.of_nat (budget limit st (List.length idxs));
     loop_frames := loop_frames st + Z.of_nat (budget limit st (List.length idxs));
     written := written st ++ map body (firstn (budget limit st (List.length idxs)) idxs) |}.
Proof.
  revert st. induction idxs as [|i rest IH]; intros st; cbn [for_frames List.length].
  - replace (budget limit st 0) with 0%nat by (unfold budget; destruct limit; lia).
    cbn. rewrite app_nil_r, !Z.add_0_r. destruct st; reflexivity.
  - destruct (reached limit st) eqn:R.
    + rewrite (budget_reached _ _ _ R).
      cbn. rewrite app_nil_r, !Z.add_0_r. destruct st; reflexivity.
    + rewrite (budget_step _ _ (body i) _ R), IH.
      cbn [firstn map write_frame frame_count loop_frames written].
      rewrite <- app_assoc. cbn [app]. f_equal; lia.
Qed.

Lemma budget_le (limit : option Z) (st : ExportState) (n : nat) : (budget limit st n <= n)%nat.
Proof. unfold budget. destruct limit; lia. Qed.

Lemma extends_refl (st : ExportState) : extends st st [].
Proof. unfold extends, len. simpl. rewrite app_nil_r. repeat split; lia. Qed.

Lemma extends_trans (a b c : ExportState) (x y : list Frame) :
  extends a b x -> extends b c y -> extends a c (x ++ y).
Proof.
  unfold extends, len. intros (W1 & L1 & F1) (W2 & L2 & F2).
  rewrite W2, W1, L2, L1, F2, F1, length_app, app_assoc. repeat split; lia.
Qed.

Lemma for_frames_extends (limit : option Z) (body : Z -> Frame) (idxs : list Z) (st : ExportState) :
  extends st (for_frames limit body idxs st)
    (map body (firstn (budget limit st (List.length idxs)) idxs)).
Proof.
  rewrite for_frames_closed. unfold extends, len. simpl.
  rewrite length_map, length_firstn.
  pose proof (budget_le limit st (List.length idxs)).
  replace (Nat.min (budget limit st (List.length idxs)) (List.length idxs))
    with (budget limit st (List.length idxs)) by lia.
  repeat split; reflexivity.
Qed.

Lemma emits_reached (limit : option Z) (st : ExportState) (full : list Frame) :
  reached limit st = true -> emits limit st st full.
Proof.
  intros R. unfold emits. rewrite (budget_reached _ _ _ R). apply extends_refl.
Qed.

Lemma emits_for_frames (limit : option Z) (body : Z -> Frame) (idxs : list Z) (st : ExportState) :
  emits limit st (for_frames limit body idxs st) (map body idxs).
Proof.
  unfold emits. rewrite length_map, firstn_map. apply for_frames_extends.
Qed.

Lemma emits_nil (limit : option Z) (st : ExportState) : emits limit st st [].
Proof.
  unfold emits. rewrite firstn_nil. apply extends_refl.
Qed.

Lemma firstn_budget_app (limit : option Z) (a b : ExportState) (A B : list Frame) :
  extends a b (firstn (budget limit a (List.length A)) A) ->
  firstn (budget limit a (List.length A)) A ++ firstn (budget limit b (List.length B)) B
  = firstn (budget limit a (List.length (A ++ B))) (A ++ B).
Proof.
  intros (_ & L & _). rewrite length_app, firstn_app.
  unfold budget in *. destruct limit as [l|].
  - unfold len in L. rewrite length_firstn in L.
    destruct (Nat.le_gt_cases (Z.to_nat (l - loop_frames a)) (List.length A)) as [Hle|Hgt].
    + replace (Nat.min (List.length A) (Z.to_nat (l - loop_frames a)))
        with (Z.to_nat (l - loop_frames a)) in * by lia.
      replace (Nat.min (List.length A + List.length B) (Z.to_nat (l - loop_frames a)))
        with (Z.to_nat (l - loop_frames a)) by lia.
      replace (Nat.min (List.length B) (Z.to_nat (l - loop_frames b))) with 0%nat by lia.
      replace (Z.to_nat (l - loop_frames a) - List.length A)%nat with 0%nat by lia.
      reflexivity.
    + replace (Nat.min (List.length A) (Z.to_nat (l - loop_frames a)))
        with (List.length A) in * by lia.
      rewrite !(firstn_all2 A) by lia. f_equal. f_equal. lia.
  - rewrite !(firstn_all2 A) by lia. f_equal.
    rewrite !firstn_all2 by lia. reflexivity.
Qed.

Lemma emits_app (limit : option Z) (a b c : ExportState) (A B : list Frame) :
  emits limit a b A -> emits limit b c B -> emits limit a c (A ++ B).
Proof.
  unfold emits. intros H1 H2.
  rewrite <- (firstn_budget_app limit a b A B H1).
  eapply extends_trans; eassumption.
Qed.

Lemma export_word_emits (s : Settings) (limit : option Z) (word : string)
    (prev_word : option string) (st : ExportState) :
  emits limit st (export_word s limit word prev_word st) (word_frames s word prev_word).
Proof.
  unfold export_word, word_frames.
  destruct (Qleb 0 (gap s)), (Qltb 0 (gap s));
    (eapply emits_app; [apply emits_for_frames|]);
    (eapply emits_app; [apply emits_for_frames|]);
    (eapply emits_app; [first [apply emits_for_frames | apply emits_nil]|]);
    first [apply emits_for_frames | apply emits_nil].
Qed.

Lemma export_words_emits (s : Settings) (limit : option Z) (prev : option string)
    (ws : list string) (st : ExportState) :
  emits limit st (export_words s limit prev ws st) (pass_frames s prev ws).
Proof.
  revert prev st. induction ws as [|w rest IH]; intros prev st; cbn [export_words pass_frames].
  - apply emits_nil.
  - destruct (reached limit st) eqn:R.
    + apply emits_reached. exact R.
    + eapply emits_app; [apply export_word_emits | apply IH].
Qed.

Lemma export_pass_written (s : Settings) (st : ExportState) :
  written (export_pass s st) = written st ++ pass_written s.
Proof.
  unfold export_pass, pass_written.
  pose proof (export_words_emits s (bar_limit s) None (words_to_export s)
                {| frame_count := frame_count st; loop_frames := 0; written := written st |}) as H.
  destruct H as (W & _). exact W.
Qed.

Lemma export_thread_written (s : Settings) :
  written (_export_thread s) = concat (repeat (pass_written s) (Z.to_nat (loops s))).
Proof.
  unfold _export_thread, range.
  assert (G : forall (l : list Z) st,
             written (fold_left (fun st _ => export_pass s st) l st)
             = written st ++ concat (repeat (pass_written s) (List.length l))).
  { induction l as [|x l IH]; intros st; simpl.
    - now rewrite app_nil_r.
    - rewrite IH, export_pass_written, <- app_assoc. reflexivity. }
  rewrite G, length_map, length_seq. reflexivity.
Qed.

(** ** Duration of a pass *)



Lemma word_frames_length (s : Settings) (word : string) (prev_word : option string) :
  List.length (word_frames s word prev_word) = frames_per_word s.
Proof.
  unfold word_frames, frames_per_word.
  rewrite !length_app, !length_map, !range_length.
  destruct (Qleb 0 (gap s)), (Qltb 0 (gap s));
    rewrite ?length_map, ?range_length; simpl; lia.
Qed.

Lemma pass_frames_length (s : Settings) (prev : option string) (ws : list string) :
  List.length (pass_frames s prev ws) = (List.length ws * frames_per_word s)%nat.
Proof.
  revert prev. induction ws as [|w rest IH]; intros prev; simpl; [reflexivity|].
  rewrite length_app, word_frames_length, IH. reflexivity.
Qed.

Lemma pass_written_all_words (s : Settings) :
  is_bars s = false -> pass_written s = pass_frames s None (words_to_export s).
Proof.
  intros H. unfold pass_written, bar_limit. rewrite H. simpl. apply firstn_all.
Qed.

Example three_words_total : single_pass (defaults ["one"; "two"; "three"]%string) == 3 # 2.
Proof. vm_compute. reflexivity. Qed.

(** ** Export of an infinite loop *)

Lemma pass_written_length_le (s : Settings) :
  (List.length (pass_written s) <= List.length (words_to_export s) * frames_per_word s)%nat.
Proof.
  unfold pass_written. rewrite length_firstn, pass_frames_length. lia.
Qed.

Lemma pass_written_within_limit (s : Settings) (l : Z) :
  bar_limit s = Some l -> (len (pass_written s) <= Z.max 0 l)%Z.
Proof.
  intros H. unfold pass_written, len. rewrite H, length_firstn. unfold budget.
  cbn [export_init loop_frames]. lia.
Qed.

(** C10.  With loop mode enabled and the infinite flag set the exporter
    runs exactly one loop iteration: its output is that of a single pass,
    at most one run of phase frames per exported word and, in ByBars mode,
    at most the bar budget. *)
Theorem export_infinite_single_pass (s : Settings)
    (Henabled : loop_enabled s = true) (Hinfinite : loop_infinite s = true) :
  loops s = 1%Z /\
  _export_thread s = export_pass s export_init /\
  written (_export_thread s) = pass_written s /\
  (List.length (written (_export_thread s))
   <= List.length (words_to_export s) * frames_per_word s)%nat /\
  (forall l, bar_limit s = Some l -> (len (written (_export_thread s)) <= Z.max 0 l)%Z).
Proof.
  assert (L : loops s = 1%Z) by (unfold loops; rewrite Henabled, Hinfinite; reflexivity).
  assert (W : written (_export_thread s) = pass_written s).
  { rewrite export_thread_written, L. simpl. apply app_nil_r. }
  split; [exact L|]. split; [unfold _export_thread; rewrite L; reflexivity|].
  split; [exact W|]. rewrite W. split.
  - apply pass_written_length_le.
  - apply pass_written_within_limit.
Qed.

Lemma export_infinite_single_pass_witness :
  (len (written (_export_thread bars_settings)) <= Z.max 0 60)%Z.
Proof.
  apply (export_infinite_single_pass bars_settings); reflexivity.
Defined.

(** The ByBars example of the spec on the exporter: one bar of 2 s holds
    exactly the first two one-second words, 30 frames each; the third word
    gets no frame. *)
Example bars_export_two_words :
  bar_limit bars_settings = Some 60%Z /\
  map f_word (written (_export_thread bars_settings))
  = repeat (Some "one"%string) 30 ++ repeat (Some "two"%string) 30.
Proof. split; vm_compute; reflexivity. Qed.

(** The same example on the live loop: the bar check before the third word
    ends the pass. *)
Example bars_live_two_words :
  shown_words None (events (live_pass bars_settings 0)) = ["one"; "two"]%string.
Proof. vm_compute. reflexivity. Qed.

(** ** LiveScheduler: the trace of a word *)

Lemma appends_refl (P : LiveEvent -> Prop) (st : LiveState) : appends P st st.
Proof. exists []. split; [now rewrite app_nil_r | constructor]. Qed.

Lemma appends_trans (P : LiveEvent -> Prop) (a b c : LiveState) :
  appends P a b -> appends P b c -> appends P a c.
Proof.
  intros (x & Ex & Fx) (y & Ey & Fy). exists (x ++ y). split.
  - rewrite Ey, Ex, app_assoc. reflexivity.
  - apply Forall_app. split; assumption.
Qed.

Lemma appends_weaken (P R : LiveEvent -> Prop) (a b : LiveState) :
  (forall e, P e -> R e) -> appends P a b -> appends R a b.
Proof.
  intros H (x & Ex & Fx). exists x. split; [exact Ex|].
  eapply List.Forall_impl; [|exact Fx]. exact H.
Qed.

Lemma appends_emit (P : LiveEvent -> Prop) (e : LiveEvent) (st : LiveState) :
  P e -> appends P st (emit e st).
Proof. intros H. exists [e]. split; [reflexivity | repeat constructor; exact H]. Qed.

Lemma appends_sleep (P : LiveEvent -> Prop) (d : Q) (st : LiveState) :
  appends P st (sleep d st).
Proof. exists []. split; [simpl; now rewrite app_nil_r | constructor]. Qed.

Lemma appends_metronome_poll (s : Settings) (start : Q) (st : LiveState) :
  appends is_tick st (metronome_poll s start st).
Proof.
  unfold metronome_poll.
  destruct (metronome_check _ _ _ _) as [m' [t|]].
  - exists [BeatTick t]. split; [reflexivity | repeat constructor].
  - exists []. split; [simpl; now rewrite app_nil_r | constructor].
Qed.

Lemma appends_poll_loop (fuel : nat) (s : Settings) (start end_time : Q) (st : LiveState) :
  appends is_tick st (poll_loop fuel s start end_time st).
Proof.
  revert st. induction fuel as [|k IH]; intros st; simpl; [apply appends_refl|].
  destruct (Qltb (now st) end_time); [|apply appends_refl].
  eapply appends_trans; [|apply IH].
  eapply appends_trans; [apply appends_metronome_poll | apply appends_sleep].
Qed.

Lemma appends_busy_wait (s : Settings) (start dur : Q) (st : LiveState) :
  appends is_tick st (busy_wait s start dur st).
Proof. apply appends_poll_loop. Qed.

Lemma appends_fold (P : LiveEvent -> Prop) (step : LiveState -> Z -> LiveState)
    (idxs : list Z) (st : LiveState) :
  (forall st i, appends P st (step st i)) -> appends P st (fold_left step idxs st).
Proof.
  intros H. revert st. induction idxs as [|i rest IH]; intros st; simpl.
  - apply appends_refl.
  - eapply appends_trans; [apply H | apply IH].
Qed.

Lemma tick_is_word_event (s : Settings) (word : string) (prev_word : option string)
    (e : LiveEvent) : is_tick e -> word_event s word prev_word e.
Proof. destruct e; simpl; tauto. Qed.

Lemma appends_fade_in_step (s : Settings) (start : Q) (word : string)
    (prev_word : option string) (st : LiveState) (i : Z) :
  0 < fade_in s ->
  appends (word_event s word prev_word) st (fade_in_step s start word prev_word st i).
Proof.
  intros Hf. unfold fade_in_step.
  eapply appends_trans;
    [eapply appends_weaken; [apply tick_is_word_event | apply appends_metronome_poll]|].
  eapply appends_trans; [|apply appends_sleep].
  destruct (Qltb (gap s) 0) eqn:G; destruct (truthy prev_word) eqn:T; simpl;
    apply appends_emit; simpl; (split; [reflexivity|]); (split; [exact Hf|]).
  - left. apply Qltb_lt in G. auto.
  - right. split; [intros [_ ?]; congruence | auto].
  - right. apply Qltb_ge in G. split; [intros [? _]; lra | auto].
  - right. split; [intros [_ ?]; congruence | auto].
Qed.

Lemma appends_fade_out_step (s : Settings) (start : Q) (word : string)
    (prev_word : option string) (st : LiveState) (i : Z) :
  0 < fade_out s -> 0 <= gap s ->
  appends (word_event s word prev_word) st (fade_out_step s start word st i).
Proof.
  intros Hf Hg. unfold fade_out_step.
  eapply appends_trans;
    [eapply appends_weaken; [apply tick_is_word_event | apply appends_metronome_poll]|].
  eapply appends_trans; [|apply appends_sleep].
  apply appends_emit. simpl. auto.
Qed.

Lemma appends_busy_wait_word (s : Settings) (word : string) (prev_word : option string)
    (start dur : Q) (st : LiveState) :
  appends (word_event s word prev_word) st (busy_wait s start dur st).
Proof.
  eapply appends_weaken; [apply tick_is_word_event | apply appends_busy_wait].
Qed.

(** Every event a word posts has the shape its phase prescribes. *)
Lemma live_word_appends (s : Settings) (start : Q) (word : string)
    (prev_word : option string) (st : LiveState) :
  appends (word_event s word prev_word) st (live_word s start word prev_word st).
Proof.
  unfold live_word.
  set (st1 := if Qltb 0 (fade_in s) then _ else _).
  assert (H1 : appends (word_event s word prev_word) st st1).
  { unfold st1. destruct (Qltb 0 (fade_in s)) eqn:F.
    - apply Qltb_lt in F. apply appends_fold. intros. now apply appends_fade_in_step.
    - apply appends_emit. simpl. auto. }
  set (st2 := busy_wait s start _ st1).
  assert (H2 : appends (word_event s word prev_word) st st2).
  { eapply appends_trans; [exact H1 | apply appends_busy_wait_word]. }
  set (st3 := if Qltb 0 (fade_out s) && Qleb 0 (gap s) then _ else _).
  assert (H3 : appends (word_event s word prev_word) st st3).
  { eapply appends_trans; [exact H2|]. unfold st3.
    destruct (Qltb 0 (fade_out s)) eqn:F; destruct (Qleb 0 (gap s)) eqn:G; cbn [andb];
      try apply appends_refl.
    apply Qltb_lt in F. apply Qleb_le in G.
    apply appends_fold. intros. now apply appends_fade_out_step. }
  destruct (Qltb 0 (gap s)) eqn:G; [|exact H3].
  apply Qltb_lt in G.
  eapply appends_trans; [exact H3|].
  apply (appends_trans _ _ (emit (Clear (now st3)) st3));
    [apply appends_emit; simpl; exact G | apply appends_busy_wait_word].
Qed.

(** ** FrameExporter: the frames of a word *)

Lemma index_ratio_bounds (i n : Z) :
  (0 <= i < n)%Z -> 0 <= inject_Z i / inject_Z n /\ inject_Z i / inject_Z n < 1.
Proof.
  intros [H0 H1].
  assert (Hn : 0 < inject_Z n) by (rewrite <- (Zlt_Qlt 0); lia).
  assert (Hi : 0 <= inject_Z i) by (rewrite <- (Zle_Qle 0); lia).
  assert (Hlt : inject_Z i < inject_Z n) by (rewrite <- Zlt_Qlt; lia).
  split.
  - apply Qle_shift_div_l; [exact Hn | lra].
  - apply Qlt_shift_div_r; [exact Hn | lra].
Qed.

Lemma word_frames_ok (s : Settings) (word : string) (prev_word : option string) :
  Forall (frame_ok s word prev_word) (word_frames s word prev_word).
Proof.
  unfold word_frames. repeat apply Forall_app_2.
  - apply List.Forall_forall. intros f Hf. apply in_map_iff in Hf.
    destruct Hf as (i & <- & Hi). apply In_range in Hi.
    unfold frame_ok, fade_in_frame. cbn [f_phase f_word f_prev f_op f_pop].
    assert (Hpos : (0 < fade_in_f s)%Z) by lia.
    destruct (Z.ltb_spec 0 (fade_in_f s)) as [_|]; [|lia].
    destruct (index_ratio_bounds i (fade_in_f s) Hi) as [B0 B1].
    repeat (split; [first [reflexivity | assumption]|]).
    destruct (Qltb (gap s) 0) eqn:G; destruct (truthy prev_word) eqn:T; cbn [andb].
    + left. apply Qltb_lt in G. unfold cross_dissolves. auto.
    + right. split; [intros [_ ?]; congruence | reflexivity].
    + right. apply Qltb_ge in G. split; [intros [? _]; lra | reflexivity].
    + right. split; [intros [_ ?]; congruence | reflexivity].
  - apply List.Forall_forall. intros f Hf. apply in_map_iff in Hf.
    destruct Hf as (i & <- & Hi). unfold frame_ok. simpl. auto.
  - destruct (Qleb 0 (gap s)) eqn:G; [|constructor]. apply Qleb_le in G.
    apply List.Forall_forall. intros f Hf. apply in_map_iff in Hf.
    destruct Hf as (i & <- & Hi). apply In_range in Hi.
    unfold frame_ok, fade_out_frame. cbn [f_phase f_word f_prev f_op f_pop].
    repeat split; auto; lia.
  - destruct (Qltb 0 (gap s)) eqn:G; [|constructor]. apply Qltb_lt in G.
    apply List.Forall_forall. intros f Hf. apply in_map_iff in Hf.
    destruct Hf as (i & <- & Hi). unfold frame_ok. simpl. auto.
Qed.

(** Whatever the limit, the frames a word writes are a prefix of its
    uncut frames. *)
Lemma export_word_written (s : Settings) (limit : option Z) (word : string)
    (prev_word : option string) (c lf : Z) :
  written (export_word s limit word prev_word (mkExport c lf []))
  = firstn (budget limit (mkExport c lf []) (List.length (word_frames s word prev_word)))
      (word_frames s word prev_word).
Proof.
  destruct (export_word_emits s limit word prev_word (mkExport c lf [])) as (W & _).
  exact W.
Qed.

Lemma export_word_frames_ok (s : Settings) (limit : option Z) (word : string)
    (prev_word : option string) (c lf : Z) :
  Forall (frame_ok s word prev_word)
    (written (export_word s limit word prev_word (mkExport c lf []))).
Proof.
  rewrite export_word_written. apply Forall_take. apply word_frames_ok.
Qed.

(** ** FadeOut and the sign of the gap *)

Lemma appends_In (P : LiveEvent -> Prop) (a b : LiveState) (e : LiveEvent) :
  appends P a b -> In e (events a) -> In e (events b).
Proof.
  intros (x & Ex & _) H. rewrite Ex. apply in_or_app. left. exact H.
Qed.

Lemma fade_out_step_posts (s : Settings) (start : Q) (word : string) (st : LiveState) (i : Z) :
  exists e, is_fade_out_event e = true /\ In e (events (fade_out_step s start word st i)).
Proof.
  unfold fade_out_step. eexists. split; [|cbn [sleep emit events]; apply in_or_app; right; left; reflexivity].
  reflexivity.
Qed.

Lemma range_fade_steps : range (fade_steps + 1) = 0%Z :: map Z.of_nat (seq 1 20).
Proof. reflexivity. Qed.

Lemma live_word_fade_out_posted (s : Settings) (start : Q) (word : string)
    (prev_word : option string) (st : LiveState) :
  0 < fade_out s -> 0 <= gap s ->
  exists e, is_fade_out_event e = true /\ In e (events (live_word s start word prev_word st)).
Proof.
  intros Hf Hg. unfold live_word.
  set (st2 := busy_wait s start (py_max _ _) _).
  apply Qltb_lt in Hf. apply Qleb_le in Hg. rewrite Hf, Hg. cbn [andb].
  rewrite range_fade_steps. cbn [fold_left].
  destruct (fade_out_step_posts s start word st2 0) as (e & He & Hin).
  exists e. split; [exact He|].
  set (st3 := fold_left _ _ _).
  assert (H3 : In e (events st3)).
  { unfold st3. eapply appends_In; [|exact Hin].
    apply (appends_fold (fun _ => True)). intros st' i.
    unfold fade_out_step.
    eapply appends_trans; [|apply appends_sleep].
    eapply appends_trans; [|apply appends_emit; exact I].
    eapply appends_weaken; [|apply appends_metronome_poll]. auto. }
  destruct (Qltb 0 (gap s)); [|exact H3].
  eapply appends_In; [apply appends_busy_wait|].
  cbn [emit events]. apply in_or_app. left. exact H3.
Qed.

Lemma live_word_events (s : Settings) (start t : Q) (m : Metro) (word : string)
    (prev_word : option string) :
  Forall (word_event s word prev_word)
    (events (live_word s start word prev_word (mkLive t m []))).
Proof.
  destruct (live_word_appends s start word prev_word (mkLive t m [])) as (x & Ex & Fx).
  rewrite Ex. exact Fx.
Qed.

Lemma word_frames_fade_out_present (s : Settings) (word : string) (prev_word : option string) :
  (0 < fade_out_f s)%Z -> 0 <= gap s ->
  In (fade_out_frame s word 0) (word_frames s word prev_word).
Proof.
  intros Hf Hg. unfold word_frames. apply Qleb_le in Hg. rewrite Hg.
  apply in_or_app; right. apply in_or_app; right. apply in_or_app; left.
  apply in_map. apply In_range. lia.
Qed.

(** C3, as stated, fails on the export path: a fade-out shorter than one
    frame is dropped.  At 300 bpm a 1/32-note fade-out lasts 0.025 s, less
    than a frame at 30 fps; with gap = 0 the live loop posts its fade-out
    steps but the exporter writes no fade-out frame. *)
Lemma export_subframe_fade_out_dropped :
  0 < fade_out subframe_settings /\ 0 <= gap subframe_settings /\
  fade_out_f subframe_settings = 0%Z /\
  existsb is_fade_out_event (events (live_pass subframe_settings 0)) = true /\
  existsb is_fade_out_frame (written (_export_thread subframe_settings)) = false.
Proof.
  split; [reflexivity|]. split; [vm_compute; discriminate|].
  repeat split; vm_compute; reflexivity.
Qed.

(** ** Cross-fade *)

Lemma word_event_cross_fade (s : Settings) (word : string) (prev_word : option string)
    (e : LiveEvent) : word_event s word prev_word e -> live_cross_fade_ok s prev_word e.
Proof.
  destruct e as [ph at_time w o pw po| |]; simpl; auto.
  destruct ph; simpl; auto.
  unfold cross_dissolves.
  intros (_ & _ & [(G & T & -> & ->) | (N & -> & ->)]).
  - split.
    + split; [auto|]. intros _. destruct prev_word; [discriminate | discriminate].
    + intros _. split; [reflexivity | ring].
  - split.
    + split; [intros H; congruence | intros H; contradiction].
    + intros H. congruence.
Qed.

Lemma frame_ok_cross_fade (s : Settings) (word : string) (prev_word : option string)
    (f : Frame) : frame_ok s word prev_word f -> export_cross_fade_ok s prev_word f.
Proof.
  unfold frame_ok, export_cross_fade_ok, cross_dissolves. intros H Hph. rewrite Hph in H.
  destruct H as (_ & Hp & _ & O0 & O1 & [(G & T & E) | (N & E)]); rewrite E.
  - split.
    + split; [auto | intros _; lra].
    + intros _. split; [exact Hp | ring].
  - split.
    + split; [intros H; lra | intros H; contradiction].
    + intros H. lra.
Qed.

(** C9.  For every word of a pass, in the live loop and in the exporter
    (whatever the bar limit): a fade-in step refers to the previous word
    exactly when gap < 0 and a previous word exists, and at every such step
    the outgoing word's opacity plus the incoming word's opacity is 1. *)
Theorem cross_fade_opacities (s : Settings) (start t : Q) (m : Metro) (c lf : Z)
    (limit : option Z) (word : string) (prev_word : option string) :
  Forall (live_cross_fade_ok s prev_word)
    (events (live_word s start word prev_word (mkLive t m []))) /\
  Forall (export_cross_fade_ok s prev_word)
    (written (export_word s limit word prev_word (mkExport c lf []))).
Proof.
  split.
  - eapply List.Forall_impl; [|apply live_word_events].
    apply word_event_cross_fade.
  - eapply List.Forall_impl; [|apply export_word_frames_ok].
    apply frame_ok_cross_fade.
Qed.

(** The cross-dissolve is not vacuous: with an eighth-note overlap the
    second word's fade-in steps carry the first word at the complementary
    opacity, live and exported. *)
Example cross_fade_steps_present :
  In (Display FadeIn (1 # 160) "two" (1 # 20) (Some "one"%string) (1 - (1 # 20)))
    (events (live_word overlap_settings 0 "two" (Some "one"%string) (mkLive 0 metro_init []))) /\
  In (mkFrame FadeIn (Some "two"%string) (inject_Z 1 / inject_Z 3) (Some "one"%string)
        (1 - inject_Z 1 / inject_Z 3))
    (written (_export_thread overlap_settings)).
Proof.
  split.
  - vm_compute. right. right. left. reflexivity.
  - vm_compute. do 13 right. left. reflexivity.
Qed.

(** ** MetronomeClock *)

Lemma beat_of_ge (spb e : Q) (j : Z) :
  0 < spb -> (inject_Z j * spb <= e <-> (j <= beat_of spb e)%Z).
Proof.
  intros Hs. unfold beat_of. split.
  - intros H. rewrite <- (Qfloor_Z j). apply Qfloor_resp_le.
    apply Qle_shift_div_l; assumption.
  - intros H. rewrite Zle_Qle in H.
    pose proof (Qfloor_le (e / spb)) as F.
    assert (E : e == e / spb * spb) by (field; lra).
    rewrite E. apply Qmult_le_compat_r; lra.
Qed.

Lemma beat_of_mono (spb a b : Q) : 0 < spb -> a <= b -> (beat_of spb a <= beat_of spb b)%Z.
Proof.
  intros Hs H. unfold beat_of. apply Qfloor_resp_le.
  apply Qle_shift_div_l; [exact Hs|].
  assert (E : a / spb * spb == a) by (field; lra). lra.
Qed.

Lemma no_beat_skipped_last (spb prev : Q) (qs : list Q) :
  no_beat_skipped spb prev qs -> prev <= List.last qs prev.
Proof.
  revert prev. induction qs as [|e rest IH]; intros prev H; simpl in *; [lra|].
  destruct H as (H1 & _ & H3). specialize (IH e H3).
  destruct rest as [|e' rest']; [exact H1|].
  assert (L : List.last (e' :: rest') prev = List.last (e' :: rest') e).
  { clear. generalize e'. induction rest' as [|x r IHr]; intros y; simpl; [reflexivity|].
    destruct r; [reflexivity|]. apply (IHr x). }
  rewrite L. lra.
Qed.

Lemma last_cons_default {A} (x d d' : A) (l : list A) : List.last (x :: l) d = List.last (x :: l) d'.
Proof.
  revert x. induction l as [|y r IH]; intros x; [reflexivity|].
  change (List.last (y :: r) d = List.last (y :: r) d'). apply IH.
Qed.

Lemma last_cons_shift {A} (e d : A) (l : list A) : List.last (e :: l) d = List.last l e.
Proof.
  destruct l as [|x r]; [reflexivity|].
  change (List.last (x :: r) d = List.last (x :: r) e). apply last_cons_default.
Qed.

Lemma beat_index_recompose (ts k : Z) (e : Q) :
  (0 < ts)%Z ->
  beat_index ts {| tick_b := k mod ts; tick_bar := k / ts; tick_elapsed := e |} = k.
Proof.
  intros H. unfold beat_index. simpl.
  pose proof (Z_div_mod_eq_full k ts). lia.
Qed.

Lemma count_from_lower (a : Z) (n : nat) (x : Z) : In x (count_from a n) -> (a <= x)%Z.
Proof.
  revert a. induction n as [|k IH]; intros a; simpl; [tauto|].
  intros [<- | H]; [lia|]. apply IH in H. lia.
Qed.

Lemma count_from_NoDup (a : Z) (n : nat) : NoDup (count_from a n).
Proof.
  revert a. induction n as [|k IH]; intros a; simpl; constructor.
  - rewrite list_elem_of_In. intros H. apply count_from_lower in H. lia.
  - apply IH.
Qed.

Lemma count_from_length (a : Z) (n : nat) : List.length (count_from a n) = n.
Proof. revert a. induction n as [|k IH]; intros a; simpl; [reflexivity|]. now rewrite IH. Qed.

Lemma count_from_range (n : Z) : count_from 0 (Z.to_nat n) = range n.
Proof.
  unfold range.
  assert (G : forall k a, count_from (Z.of_nat a) k = map Z.of_nat (seq a k)).
  { induction k as [|k IH]; intros a; simpl; [reflexivity|].
    f_equal. rewrite <- IH. f_equal. lia. }
  apply (G (Z.to_nat n) 0%nat).
Qed.

(** The metronome after a query in beat [k] has ticked beats [0..k]; the
    later queries tick beats [k+1 ..] up to the beat of the List.last query. *)
Lemma run_queries_from (spb : Q) (ts : Z) (qs : list Q) :
  0 < spb -> (0 < ts)%Z ->
  forall (m : Metro) (k : Z) (prev : Q),
    metro_beat m = (k + 1)%Z -> next_beat m == inject_Z (k + 1) * spb ->
    beat_of spb prev = k -> no_beat_skipped spb prev qs ->
    map (beat_index ts) (run_queries spb ts m qs)
    = count_from (k + 1) (Z.to_nat (beat_of spb (List.last qs prev) - k)) /\
    Forall (tick_ok spb ts) (run_queries spb ts m qs).
Proof.
  intros Hs Hts. induction qs as [|e rest IH]; intros m k prev Hm Hn Hp Hq.
  - simpl. rewrite Hp. replace (k - k)%Z with 0%Z by lia. split; [reflexivity | constructor].
  - destruct Hq as (Hle & Hskip & Hrest).
    pose proof (beat_of_mono spb prev e Hs Hle) as Hmono.
    pose proof (no_beat_skipped_last spb e rest Hrest) as Hlast.
    pose proof (beat_of_mono spb e _ Hs Hlast) as Hlastb.
    assert (HL : List.last (e :: rest) prev = List.last rest e)
      by apply last_cons_shift.
    rewrite HL. cbn [run_queries]. unfold metronome_check.
    destruct (Qleb (next_beat m) e) eqn:C.
    + apply Qleb_le in C. rewrite Hn in C. apply beat_of_ge in C; [|exact Hs].
      assert (Hb : beat_of spb e = (k + 1)%Z) by lia.
      destruct (IH {| metro_beat := metro_beat m + 1;
                      next_beat := inject_Z (metro_beat m + 1) * spb |} (k + 1)%Z e)
        as (IH1 & IH2); simpl; try assumption; try (rewrite Hm; reflexivity).
      cbn [map]. rewrite IH1. split.
      * rewrite Hm, beat_index_recompose by exact Hts.
        replace (Z.to_nat (beat_of spb (List.last rest e) - k))
          with (S (Z.to_nat (beat_of spb (List.last rest e) - (k + 1)))) by lia.
        reflexivity.
      * constructor; [|exact IH2].
        unfold tick_ok. rewrite Hm, beat_index_recompose by exact Hts.
        simpl. auto.
    + apply Qleb_gt in C. rewrite Hn in C.
      assert (Hb : beat_of spb e = k).
      { destruct (Z.eq_dec (beat_of spb e) k) as [E|E]; [exact E|].
        assert (G : (k + 1 <= beat_of spb e)%Z) by lia.
        apply beat_of_ge in G; [|exact Hs]. lra. }
      destruct (IH m k e Hm Hn Hb Hrest) as (IH1 & IH2).
      split; assumption.
Qed.

Lemma beat_of_first (spb e0 : Q) : 0 < spb -> 0 <= e0 -> e0 < spb -> beat_of spb e0 = 0%Z.
Proof.
  intros Hs H0 H1.
  assert (A : (0 <= beat_of spb e0)%Z).
  { apply beat_of_ge; [exact Hs|]. change (inject_Z 0) with 0. lra. }
  destruct (Z_lt_le_dec (beat_of spb e0) 1) as [L|G]; [lia|].
  apply beat_of_ge in G; [|exact Hs]. change (inject_Z 1) with 1 in G. lra.
Qed.

(** C4.  For queries that start within the first beat, never go back in
    time and never jump over a whole beat, the metronome emits exactly the
    beat indices [0 .. floor(T / secondsPerBeat)] in order, [T] being the
    time of the last query: [floor(T / secondsPerBeat) + 1] ticks, none
    twice, each emitted by the query that enters its beat and reported as
    (beat mod timeSigNum, bar = beat div timeSigNum). *)
Theorem metronome_ticks (spb : Q) (ts : Z) (e0 : Q) (rest : list Q)
    (Hspb : 0 < spb) (Hts : (0 < ts)%Z) (H0 : 0 <= e0) (Hfirst : e0 < spb)
    (Hq : no_beat_skipped spb e0 rest) :
  let ticks := run_queries spb ts metro_init (e0 :: rest) in
  let T := List.last rest e0 in
  map (beat_index ts) ticks = range (beat_of spb T + 1) /\
  len ticks = (beat_of spb T + 1)%Z /\
  NoDup (map (beat_index ts) ticks) /\
  Forall (tick_ok spb ts) ticks.
Proof.
  intros ticks T.
  pose proof (beat_of_first spb e0 Hspb H0 Hfirst) as Hb0.
  pose proof (no_beat_skipped_last spb e0 rest Hq) as Hlast.
  pose proof (beat_of_mono spb e0 T Hspb Hlast) as HT. rewrite Hb0 in HT.
  assert (C : Qleb (next_beat metro_init) e0 = true) by (apply Qleb_le; simpl; exact H0).
  destruct (run_queries_from spb ts rest Hspb Hts
              {| metro_beat := 0 + 1; next_beat := inject_Z (0 + 1) * spb |} 0%Z e0)
    as (R1 & R2); try reflexivity; try assumption.
  assert (E : map (beat_index ts) ticks = range (beat_of spb T + 1)).
  { unfold ticks. cbn [run_queries]. unfold metronome_check. rewrite C.
    cbn [map metro_init metro_beat]. rewrite R1.
    rewrite (beat_index_recompose ts 0 e0 Hts).
    rewrite <- count_from_range. fold T.
    replace (Z.to_nat (beat_of spb T + 1)) with (S (Z.to_nat (beat_of spb T - 0))) by lia.
    reflexivity. }
  split; [exact E|]. split; [|split].
  - unfold len. rewrite <- (length_map (beat_index ts)), E, range_length. lia.
  - rewrite E, <- count_from_range. apply count_from_NoDup.
  - unfold ticks. cbn [run_queries]. unfold metronome_check. rewrite C.
    constructor; [|exact R2].
    unfold tick_ok. cbn [metro_init metro_beat].
    rewrite (beat_index_recompose ts 0 e0 Hts). simpl. auto.
Qed.

Lemma metronome_ticks_witness :
  map (beat_index 4) (run_queries (1 # 2) 4 metro_init [0; 1 # 4; 1 # 2; 3 # 4; 1; 5 # 4])
  = range (beat_of (1 # 2) (5 # 4) + 1).
Proof.
  apply (metronome_ticks (1 # 2) 4 0 [1 # 4; 1 # 2; 3 # 4; 1; 5 # 4]);
    try reflexivity; try discriminate.
  simpl. repeat split; discriminate.
Defined.

Example metronome_three_ticks :
  run_queries (1 # 2) 4 metro_init [0; 1 # 4; 1 # 2; 3 # 4; 1; 5 # 4]
  = [mkTick 0 0 0; mkTick 1 0 (1 # 2); mkTick 2 0 1].
Proof. reflexivity. Qed.

(** ** LiveScheduler: the ideal clock *)

Lemma metronome_poll_now (s : Settings) (start : Q) (st : LiveState) :
  now (metronome_poll s start st) = now st.
Proof.
  unfold metronome_poll. destruct (metronome_check _ _ _ _) as [m' [t|]]; reflexivity.
Qed.

Lemma poll_loop_reaches (fuel : nat) (s : Settings) (start end_time : Q) (st : LiveState) :
  (end_time - now st) * 1000 <= inject_Z (Z.of_nat fuel) ->
  end_time <= now (poll_loop fuel s start end_time st).
Proof.
  revert st. induction fuel as [|k IH]; intros st H.
  - cbn [poll_loop]. change (inject_Z (Z.of_nat 0)) with 0 in H. lra.
  - cbn [poll_loop]. destruct (Qltb (now st) end_time) eqn:C.
    + apply IH. cbn [sleep now]. rewrite Qred_correct, metronome_poll_now.
      rewrite Nat2Z.inj_succ in H. unfold Z.succ in H. rewrite inject_Z_plus in H.
      change (inject_Z 1) with 1 in H. lra.
    + apply Qltb_ge in C. exact C.
Qed.

(** The polling loop is given enough fuel: it is left because the clock has
    reached the end time, as the [while] condition demands. *)
Lemma busy_wait_reaches (s : Settings) (start dur : Q) (st : LiveState) :
  now st + dur <= now (busy_wait s start dur st).
Proof.
  unfold busy_wait. apply poll_loop_reaches. unfold poll_fuel.
  set (x := (now st + dur - now st) * 1000).
  pose proof (Qle_ceiling x) as Hc.
  assert (Hz : inject_Z (Qceiling x) <= inject_Z (Z.of_nat (Z.to_nat (Qceiling x))))
    by (rewrite <- Zle_Qle; lia).
  lra.
Qed.

(** ** ByBars: the live loop checks the bar budget between words only *)

(** C2 (the code departs from the claim).  One bar of 1/4 at 120 bpm is a
    budget of 0.5 s; the word lasts a whole note, 2 s, and fades out over a
    quarter note.  The exporter stops after 15 frames, in the middle of the
    word's Hold phase.  The live loop, which tests the budget only before a
    word starts, plays the word to its end: all 21 fade-out steps are
    posted between 1.5 s and 2 s, well after the budget is spent, and only
    then is the pass ended. *)
Theorem live_pass_overruns_bar_budget :
  inject_Z (loop_bars overrun_settings) * get_bar_seconds overrun_settings == 1 # 2 /\
  bar_limit overrun_settings = Some 15%Z /\
  map f_phase (written (_export_thread overrun_settings)) = repeat Hold 15 /\
  shown_words None (events (live_pass overrun_settings 0)) = ["a"%string] /\
  List.length (filter is_fade_out_event (events (live_pass overrun_settings 0))) = 21%nat /\
  forallb (fun e => negb (is_fade_out_event e) || displayed_from (3 # 2) e)
    (events (live_pass overrun_settings 0)) = true /\
  existsb (displayed_from 2) (events (live_pass overrun_settings 0)) = true.
Proof. repeat split; vm_compute; reflexivity. Qed.

(** * Further properties of the code *)

(** ** Colour strings *)

Lemma py_int_inject_Z (x : Q) (z : Z) : x == inject_Z z -> py_int x = z.
Proof.
  destruct x as [n d]. unfold Qeq, py_int. simpl. intros H.
  rewrite Z.mul_1_r in H. rewrite H. apply Z.quot_mul. lia.
Qed.

Lemma fmt02x_byte_length (n : Z) : (0 <= n <= 255)%Z -> String.length (fmt02x n) = 2%nat.
Proof.
  intros H. destruct (fmt02x_byte n H) as (c1 & c2 & d1 & d2 & E & _). rewrite E. reflexivity.
Qed.

Lemma append_length (a b : string) :
  String.length (a ++ b) = (String.length a + String.length b)%nat.
Proof. induction a as [|c a IH]; simpl; [reflexivity | now rewrite IH]. Qed.

Lemma format_rgb_round_trip_aux (c : RGB) :
  byte_range c -> String.length (format_rgb c) = 7%nat /\ hex_to_rgb (format_rgb c) = Some c.
Proof.
  intros Hc. split; [|apply hex_to_rgb_format_rgb; exact Hc].
  destruct c as [[r g] b]. destruct Hc as (Hr & Hg & Hb).
  unfold format_rgb. cbn [String.length]. rewrite !append_length.
  rewrite !fmt02x_byte_length by assumption. reflexivity.
Qed.

(** X1.  A colour with channels in 0..255 written as ['#{:02x}{:02x}{:02x}']
    (by [blend_color], and by the screen colour picker) is a string of seven
    characters that [hex_to_rgb] reads back as the same channels. *)
Theorem format_rgb_round_trip (c : RGB) (Hc : byte_range c) :
  String.length (format_rgb c) = 7%nat /\ hex_to_rgb (format_rgb c) = Some c.
Proof. apply format_rgb_round_trip_aux. exact Hc. Qed.

Lemma format_rgb_round_trip_witness :
  hex_to_rgb (format_rgb (18, 171, 255)%Z) = Some (18, 171, 255)%Z.
Proof.
  apply (format_rgb_round_trip (18, 171, 255)%Z). simpl. lia.
Defined.

(** X2.  A colour string with fewer than five characters after the
    leading ['#'] is rejected; one made of at least five hexadecimal digits
    is accepted, with channels in 0..255 (a fifth digit alone is read as
    the blue channel). *)
Theorem hex_to_rgb_by_length (h : string) :
  ((String.length (lstrip_hash h) < 5)%nat -> hex_to_rgb h = None) /\
  (all_hex (lstrip_hash h) = true -> (5 <= String.length (lstrip_hash h))%nat ->
   exists c, hex_to_rgb h = Some c /\ byte_range c).
Proof.
  split.
  - unfold hex_to_rgb. intros Hl.
    destruct (lstrip_hash h) as [|c1 [|c2 [|c3 [|c4 [|c5 t]]]]]; simpl in Hl; try lia;
      simpl;
      repeat match goal with
             | |- context [hex_digit ?c] => destruct (hex_digit c)
             end; reflexivity.
  - intros Hx Hl.
    assert (E : exists c, hex_to_rgb h = Some c).
    { unfold hex_to_rgb.
      destruct (lstrip_hash h) as [|c1 [|c2 [|c3 [|c4 [|c5 t]]]]]; simpl in Hl; try lia.
      cbn [all_hex] in Hx.
      destruct (hex_digit c1) eqn:E1; [|discriminate].
      destruct (hex_digit c2) eqn:E2; [|discriminate].
      destruct (hex_digit c3) eqn:E3; [|discriminate].
      destruct (hex_digit c4) eqn:E4; [|discriminate].
      destruct (hex_digit c5) eqn:E5; [|discriminate].
      destruct t as [|c6 t'].
      - simpl. rewrite E1, E2, E3, E4, E5. eexists. reflexivity.
      - cbn [all_hex] in Hx. destruct (hex_digit c6) eqn:E6; [|discriminate].
        destruct t'; simpl; rewrite E1, E2, E3, E4, E5, E6; eexists; reflexivity. }
    destruct E as (c & Hc). exists c. split; [exact Hc|].
    eapply hex_to_rgb_range. exact Hc.
Qed.

Lemma hex_to_rgb_by_length_witness : hex_to_rgb "#fff" = None.
Proof.
  apply (hex_to_rgb_by_length "#fff"). simpl. lia.
Defined.

Example hex_to_rgb_five_digits : hex_to_rgb "#12345" = Some (18, 52, 5)%Z.
Proof. reflexivity. Qed.

(** X3.  [hex_to_rgb] skips every leading ['#'] and ignores whatever
    follows the sixth digit. *)
Theorem hex_to_rgb_ignores_hash_and_tail (c1 c2 c3 c4 c5 c6 : ascii) (tail h : string)
    (Hc1 : Ascii.eqb c1 "#" = false) :
  let six := String c1 (String c2 (String c3 (String c4 (String c5 (String c6 EmptyString))))) in
  hex_to_rgb (String "#" h) = hex_to_rgb h /\
  hex_to_rgb (six ++ tail) = hex_to_rgb six /\
  hex_to_rgb (String "#" (six ++ tail)) = hex_to_rgb six.
Proof.
  intros six.
  assert (A : forall t, hex_to_rgb (String "#" t) = hex_to_rgb t) by reflexivity.
  assert (B : hex_to_rgb (six ++ tail) = hex_to_rgb six).
  { unfold hex_to_rgb, six. cbv [append]. cbn [lstrip_hash]. rewrite Hc1.
    destruct tail; reflexivity. }
  split; [apply A|]. split; [exact B|]. rewrite A. exact B.
Qed.

Lemma hex_to_rgb_ignores_hash_and_tail_witness :
  hex_to_rgb "ff8000cc" = hex_to_rgb "ff8000".
Proof.
  apply (hex_to_rgb_ignores_hash_and_tail "f" "f" "8" "0" "0" "0" "cc" EmptyString).
  reflexivity.
Defined.

(** ** Blend *)

(** X5.  [blend_color] fails exactly when one of its two colour strings
    does not parse; otherwise, for an opacity in [0,1], it returns a
    seven-character colour string that reads back as the blended
    channels. *)
Theorem blend_color_result (fg bg : string) (opacity : Q) (Ho : 0 <= opacity <= 1) :
  (blend_color fg bg opacity = None <-> hex_to_rgb fg = None \/ hex_to_rgb bg = None) /\
  (forall f b, hex_to_rgb fg = Some f -> hex_to_rgb bg = Some b ->
     exists color,
       blend_color fg bg opacity = Some color /\
       String.length color = 7%nat /\
       hex_to_rgb color = Some (blend_rgb f b opacity)).
Proof.
  split.
  - unfold blend_color.
    destruct (hex_to_rgb fg), (hex_to_rgb bg); split; intros H;
      try discriminate; try (destruct H; discriminate); auto.
  - intros f b Hf Hb. unfold blend_color. rewrite Hf, Hb.
    eexists. split; [reflexivity|].
    apply format_rgb_round_trip_aux.
    apply blend_rgb_range; [eapply hex_to_rgb_range; eassumption .. | exact Ho].
Qed.

Lemma blend_color_result_witness :
  exists color,
    blend_color "#FFFFFF" "#000000" (1 # 2) = Some color /\
    String.length color = 7%nat /\
    hex_to_rgb color = Some (blend_rgb (255, 255, 255)%Z (0, 0, 0)%Z (1 # 2)).
Proof.
  apply (blend_color_result "#FFFFFF" "#000000" (1 # 2)); [split; discriminate | reflexivity ..].
Defined.

(** X6.  With a transparent background [_render_frame] never blends: for
    opacities in [0,1] every text is filled with the unchanged foreground
    colour and an alpha of [int(255 * opacity)], between 0 and 255, and
    the background colour has no influence on what is drawn. *)
Theorem render_frame_transparent (word prev_word : option string) (op prev_op : Q)
    (bg bg' fg : RGB) (Hop : 0 <= op <= 1) (Hpop : 0 <= prev_op <= 1) :
  Forall (fun item => exists alpha,
            snd item = FillRGBA fg alpha /\ (0 <= alpha <= 255)%Z /\
            (alpha = py_int (255 * op) \/ alpha = py_int (255 * prev_op)))
    (_render_frame word op prev_word prev_op bg fg true) /\
  _render_frame word op prev_word prev_op bg fg true
  = _render_frame word op prev_word prev_op bg' fg true.
Proof.
  assert (R : forall o, 0 <= o <= 1 -> (0 <= py_int (255 * o) <= 255)%Z).
  { intros o [O0 O1]. rewrite py_int_floor by nra.
    assert (A0 : 0 <= 255 * o) by nra. assert (A1 : 255 * o <= 255) by nra.
    apply Qfloor_resp_le in A0, A1.
    change (Qfloor 0) with 0%Z in A0. change (Qfloor 255) with 255%Z in A1. lia. }
  split; [|reflexivity].
  unfold _render_frame. apply Forall_app_2.
  - destruct (truthy prev_word && Qltb 0 prev_op); repeat constructor.
    simpl. eexists. split; [reflexivity|]. split; [apply R; exact Hpop | right; reflexivity].
  - destruct (truthy word && Qltb 0 op); repeat constructor.
    simpl. eexists. split; [reflexivity|]. split; [apply R; exact Hop | left; reflexivity].
Qed.

Lemma render_frame_transparent_witness :
  _render_frame (Some "a"%string) (1 # 2) None 0 (0, 0, 0)%Z (255, 255, 255)%Z true
  = _render_frame (Some "a"%string) (1 # 2) None 0 (9, 9, 9)%Z (255, 255, 255)%Z true.
Proof.
  apply (render_frame_transparent (Some "a"%string) None (1 # 2) 0);
    split; discriminate.
Defined.

(** ** Metronome without a polling assumption *)

Lemma run_queries_numbering (spb : Q) (ts : Z) (qs : list Q) :
  (0 < ts)%Z ->
  forall m : Metro,
    next_beat m == inject_Z (metro_beat m) * spb ->
    map (beat_index ts) (run_queries spb ts m qs)
    = count_from (metro_beat m) (List.length (run_queries spb ts m qs)) /\
    (List.length (run_queries spb ts m qs) <= List.length qs)%nat /\
    Forall (fun t => inject_Z (beat_index ts t) * spb <= tick_elapsed t)
      (run_queries spb ts m qs).
Proof.
  intros Hts. induction qs as [|e rest IH]; intros m Hn.
  - simpl. split; [reflexivity|]. split; [lia | constructor].
  - cbn [run_queries]. unfold metronome_check.
    destruct (Qleb (next_beat m) e) eqn:C.
    + destruct (IH {| metro_beat := metro_beat m + 1;
                      next_beat := inject_Z (metro_beat m + 1) * spb |})
        as (I1 & I2 & I3); [reflexivity|].
      cbn [map List.length count_from metro_beat] in *.
      rewrite I1, beat_index_recompose by exact Hts.
      split; [reflexivity|]. split; [lia|].
      constructor; [|exact I3].
      rewrite beat_index_recompose by exact Hts. cbn [tick_elapsed].
      apply Qleb_le in C. rewrite Hn in C. exact C.
    + destruct (IH m Hn) as (I1 & I2 & I3).
      split; [exact I1|]. split; [simpl; lia | exact I3].
Qed.

(** X7.  Whatever the polling pattern, the metronome numbers its ticks
    0, 1, 2, ... without a hole or a repeat: a beat that was missed because
    no query fell into it is emitted late, not dropped. *)
Theorem metronome_numbers_consecutively (spb : Q) (ts : Z) (qs : list Q)
    (Hts : (0 < ts)%Z) :
  map (beat_index ts) (run_queries spb ts metro_init qs)
  = range (len (run_queries spb ts metro_init qs)).
Proof.
  destruct (run_queries_numbering spb ts qs Hts metro_init) as (H & _).
  - simpl. ring.
  - rewrite H. cbn [metro_init metro_beat]. rewrite <- count_from_range.
    unfold len. rewrite Nat2Z.id. reflexivity.
Qed.

Lemma metronome_numbers_consecutively_witness :
  map (beat_index 4) (run_queries (1 # 2) 4 metro_init [0%Q; 3%Q; 3%Q; 3001 # 1000])
  = range (len (run_queries (1 # 2) 4 metro_init [0%Q; 3%Q; 3%Q; 3001 # 1000])).
Proof.
  apply (metronome_numbers_consecutively (1 # 2) 4). reflexivity.
Defined.

(** X8.  The metronome emits at most one tick per query and never emits a
    beat before its time: the tick of beat [k] is emitted at an elapsed
    time of at least [k * secondsPerBeat]. *)
Theorem metronome_one_tick_per_query (spb : Q) (ts : Z) (qs : list Q)
    (Hts : (0 < ts)%Z) :
  (List.length (run_queries spb ts metro_init qs) <= List.length qs)%nat /\
  Forall (fun t => inject_Z (beat_index ts t) * spb <= tick_elapsed t)
    (run_queries spb ts metro_init qs).
Proof.
  destruct (run_queries_numbering spb ts qs Hts metro_init) as (_ & H2 & H3).
  - simpl. ring.
  - split; assumption.
Qed.

Lemma metronome_one_tick_per_query_witness :
  (List.length (run_queries (1 # 2) 4 metro_init [0%Q; 3%Q; 3%Q; 3001 # 1000]) <= 4)%nat.
Proof.
  apply (metronome_one_tick_per_query (1 # 2) 4 [0%Q; 3%Q; 3%Q; 3001 # 1000]). reflexivity.
Defined.

Example metronome_catches_up :
  map (beat_index 4) (run_queries (1 # 2) 4 metro_init [0%Q; 3%Q; 3%Q; 3001 # 1000])
  = [0; 1; 2; 3]%Z.
Proof. reflexivity. Qed.

(** ** The exported frame sequence *)

Lemma export_pass_init_written (s : Settings) :
  written (export_pass s export_init) = pass_written s.
Proof. rewrite export_pass_written. reflexivity. Qed.

Lemma export_pass_frame_count (s : Settings) (st : ExportState) :
  frame_count (export_pass s st) = (frame_count st + len (pass_written s))%Z.
Proof.
  unfold export_pass, pass_written.
  pose proof (export_words_emits s (bar_limit s) None (words_to_export s)
                {| frame_count := frame_count st; loop_frames := 0; written := written st |}) as H.
  destruct H as (_ & _ & F). exact F.
Qed.

Lemma concat_repeat_length {A} (l : list A) (n : nat) :
  List.length (concat (repeat l n)) = (n * List.length l)%nat.
Proof.
  induction n as [|n IH]; simpl; [reflexivity|]. rewrite length_app, IH. reflexivity.
Qed.

Lemma export_frame_counter_aux (s : Settings) :
  frame_count (_export_thread s) = len (written (_export_thread s)) /\
  written (_export_thread s)
  = concat (repeat (written (export_pass s export_init)) (Z.to_nat (loops s))) /\
  len (written (_export_thread s))
  = (Z.max 0 (loops s) * len (written (export_pass s export_init)))%Z.
Proof.
  assert (G : forall (l : list Z) st,
             frame_count st = len (written st) ->
             frame_count (fold_left (fun st _ => export_pass s st) l st)
             = len (written (fold_left (fun st _ => export_pass s st) l st))).
  { induction l as [|x l IH]; intros st H; simpl; [exact H|].
    apply IH. rewrite export_pass_frame_count, export_pass_written, H.
    unfold len. rewrite length_app. lia. }
  split; [apply G; reflexivity|].
  rewrite export_pass_init_written, export_thread_written.
  split; [reflexivity|].
  unfold len. rewrite concat_repeat_length. lia.
Qed.

(** X9.  The frame counter the exporter reports (and numbers PNG files
    with) equals the number of frames written; the output is the frames of
    one pass repeated [loops] times, every pass writing the same frames. *)
Theorem export_frame_counter (s : Settings) :
  frame_count (_export_thread s) = len (written (_export_thread s)) /\
  written (_export_thread s)
  = concat (repeat (written (export_pass s export_init)) (Z.to_nat (loops s))) /\
  len (written (_export_thread s))
  = (Z.max 0 (loops s) * len (written (export_pass s export_init)))%Z.
Proof. apply export_frame_counter_aux. Qed.

(** X10.  In ByBars mode a pass is exactly [bar_limit] frames long when the
    words from the start index fill the bar, and ends with the last word,
    without padding, when they do not. *)
Theorem bars_pass_length (s : Settings) (l : Z) (Hl : bar_limit s = Some l) :
  List.length (written (export_pass s export_init))
  = Nat.min (List.length (words_to_export s) * frames_per_word s) (Z.to_nat l).
Proof.
  rewrite export_pass_init_written. unfold pass_written.
  rewrite Hl, length_firstn, pass_frames_length. unfold budget.
  cbn [export_init loop_frames]. rewrite Z.sub_0_r. lia.
Qed.

Lemma bars_pass_length_witness :
  List.length (written (export_pass bars_settings export_init))
  = Nat.min (List.length (words_to_export bars_settings) * frames_per_word bars_settings)
      (Z.to_nat 60).
Proof.
  apply (bars_pass_length bars_settings 60). reflexivity.
Defined.

(** X11.  A pass of a looping export, ByBars or not, is the export of the
    same settings without looping, cut short: the bar limit only ever
    removes frames from the end. *)
Theorem looped_pass_is_prefix (s : Settings) :
  written (export_pass s export_init)
  = firstn (List.length (written (export_pass s export_init)))
      (written (_export_thread (without_loop s))).
Proof.
  rewrite export_pass_init_written, export_thread_written.
  assert (L : loops (without_loop s) = 1%Z) by reflexivity.
  rewrite L. change (Z.to_nat 1) with 1%nat. cbn [repeat concat].
  rewrite app_nil_r.
  assert (P : pass_written (without_loop s) = pass_frames s None (words_to_export s)).
  { rewrite pass_written_all_words by reflexivity.
    change (words_to_export (without_loop s)) with (words_to_export s).
    generalize (@None string). induction (words_to_export s) as [|w rest IH]; intros prev;
      [reflexivity|].
    cbn [pass_frames]. rewrite IH. reflexivity. }
  rewrite P. unfold pass_written.
  set (full := pass_frames s None (words_to_export s)).
  set (k := budget (bar_limit s) export_init (List.length full)).
  rewrite length_firstn.
  destruct (Nat.le_gt_cases k (List.length full)) as [H|H].
  - replace (Nat.min k (List.length full)) with k by lia. reflexivity.
  - replace (Nat.min k (List.length full)) with (List.length full) by lia.
    rewrite firstn_all. apply firstn_all2. lia.
Qed.

Lemma word_frames_opacity_ok (s : Settings) (word : string) (prev_word : option string) :
  Forall frame_opacity_ok (word_frames s word prev_word).
Proof.
  unfold word_frames. repeat apply Forall_app_2.
  - apply List.Forall_forall. intros f Hf. apply in_map_iff in Hf.
    destruct Hf as (i & <- & Hi). apply In_range in Hi.
    unfold frame_opacity_ok, fade_in_frame. cbn [f_phase f_op].
    destruct (Z.ltb_spec 0 (fade_in_f s)) as [_|]; [|lia].
    apply index_ratio_bounds. exact Hi.
  - apply List.Forall_forall. intros f Hf. apply in_map_iff in Hf.
    destruct Hf as (i & <- & Hi). reflexivity.
  - destruct (Qleb 0 (gap s)); [|constructor].
    apply List.Forall_forall. intros f Hf. apply in_map_iff in Hf.
    destruct Hf as (i & <- & Hi). apply In_range in Hi.
    unfold frame_opacity_ok, fade_out_frame. cbn [f_phase f_op].
    destruct (Z.ltb_spec 0 (fade_out_f s)) as [_|]; [|lia].
    destruct (index_ratio_bounds i (fade_out_f s) Hi) as [B0 B1]. split; lra.
  - destruct (Qltb 0 (gap s)); [|constructor].
    apply List.Forall_forall. intros f Hf. apply in_map_iff in Hf.
    destruct Hf as (i & <- & Hi). split; reflexivity.
Qed.

Lemma pass_frames_Forall (P : Frame -> Prop) (s : Settings) (prev : option string)
    (ws : list string) :
  (forall w p, Forall P (word_frames s w p)) -> Forall P (pass_frames s prev ws).
Proof.
  intros H. revert prev. induction ws as [|w rest IH]; intros prev; simpl; [constructor|].
  apply Forall_app_2; [apply H | apply IH].
Qed.

Lemma Forall_concat_repeat {A} (P : A -> Prop) (l : list A) (n : nat) :
  Forall P l -> Forall P (concat (repeat l n)).
Proof.
  intros H. induction n as [|n IH]; simpl; [constructor|]. apply Forall_app_2; assumption.
Qed.

Lemma export_thread_Forall (P : Frame -> Prop) (s : Settings) :
  (forall w p, Forall P (word_frames s w p)) -> Forall P (written (_export_thread s)).
Proof.
  intros H. rewrite export_thread_written. apply Forall_concat_repeat.
  unfold pass_written. apply Forall_take. apply pass_frames_Forall. exact H.
Qed.

(** X12.  In every exported frame the opacity is fixed by the phase: a
    fade-in frame has an opacity in [0,1) (the fade-in frames never reach
    full opacity), a hold frame has opacity 1, a fade-out frame has an
    opacity in (0,1] (the fade-out frames never reach zero), and a gap
    frame is blank. *)
Theorem export_opacity_by_phase (s : Settings) :
  Forall frame_opacity_ok (written (_export_thread s)).
Proof. apply export_thread_Forall. intros w p. apply word_frames_opacity_ok. Qed.

Lemma filter_map_const {A B} (p : B -> bool) (f : A -> B) (b : bool) (l : list A) :
  (forall i, p (f i) = b) -> List.filter p (map f l) = if b then map f l else [].
Proof.
  intros H. induction l as [|x l IH]; simpl; [destruct b; reflexivity|].
  rewrite H, IH. destruct b; reflexivity.
Qed.

Lemma map_const_repeat {A B} (x : B) (l : list A) :
  map (fun _ => x) l = repeat x (List.length l).
Proof. induction l as [|y l IH]; simpl; [reflexivity | now rewrite IH]. Qed.

Lemma word_frames_hold (s : Settings) (word : string) (prev_word : option string) :
  List.filter is_hold_frame (word_frames s word prev_word)
  = repeat (mkFrame Hold (Some word) 1 None 0) (Z.to_nat (main_f s)).
Proof.
  unfold word_frames. rewrite !List.filter_app.
  rewrite (filter_map_const is_hold_frame (fade_in_frame s word prev_word) false)
    by reflexivity.
  rewrite (filter_map_const is_hold_frame (fun _ => mkFrame Hold (Some word) 1 None 0) true)
    by reflexivity.
  assert (E1 : List.filter is_hold_frame
                 (if Qleb 0 (gap s) then map (fade_out_frame s word) (range (fade_out_f s)) else [])
               = []).
  { destruct (Qleb 0 (gap s)); [|reflexivity].
    apply (filter_map_const is_hold_frame (fade_out_frame s word) false). reflexivity. }
  assert (E2 : List.filter is_hold_frame
                 (if Qltb 0 (gap s)
                  then map (fun _ => mkFrame Gap (Some EmptyString) 0 None 0) (range (gap_f s))
                  else [])
               = []).
  { destruct (Qltb 0 (gap s)); [|reflexivity].
    apply (filter_map_const is_hold_frame
             (fun _ => mkFrame Gap (Some EmptyString) 0 None 0) false). reflexivity. }
  rewrite E1, E2, map_const_repeat, range_length. cbn [app]. apply app_nil_r.
Qed.

Lemma pass_frames_hold (s : Settings) (prev : option string) (ws : list string) :
  List.filter is_hold_frame (pass_frames s prev ws)
  = flat_map (fun w => repeat (mkFrame Hold (Some w) 1 None 0) (Z.to_nat (main_f s))) ws.
Proof.
  revert prev. induction ws as [|w rest IH]; intros prev; [reflexivity|].
  cbn [pass_frames flat_map]. rewrite List.filter_app, word_frames_hold, IH. reflexivity.
Qed.

(** X13.  Without a bar limit every word from the start index on is
    exported, in text order, with the same number of full-opacity frames,
    at least one, however long the fades are. *)
Theorem all_words_hold_frames (s : Settings) (Hmode : is_bars s = false) :
  List.filter is_hold_frame (written (export_pass s export_init))
  = flat_map (fun w => repeat (mkFrame Hold (Some w) 1 None 0) (Z.to_nat (main_f s)))
      (words_to_export s) /\
  (1 <= Z.to_nat (main_f s))%nat.
Proof.
  split; [|unfold main_f; lia].
  rewrite export_pass_init_written, (pass_written_all_words s Hmode).
  apply pass_frames_hold.
Qed.

Lemma all_words_hold_frames_witness :
  List.filter is_hold_frame (written (export_pass overlap_settings export_init))
  = flat_map (fun w => repeat (mkFrame Hold (Some w) 1 None 0)
                         (Z.to_nat (main_f overlap_settings)))
      (words_to_export overlap_settings).
Proof.
  apply (all_words_hold_frames overlap_settings). reflexivity.
Defined.

(** X14.  For a ByBars loop played a finite number of times the exported
    video is never longer than the duration the display announces:
    [frame_count / fps] is at most [loop_bars * barSeconds * loop_times]
    (for a time signature, bar count and loop count that are not
    negative). *)
Theorem bars_export_within_displayed_duration (s : Settings) (total : Q) (times : Z)
    (Hbars : is_bars s = true) (Hfin : loop_infinite s = false)
    (Hbpm : (0 < bpm s)%Z) (Hfps : (0 < export_fps s)%Z)
    (Hts : (0 <= time_signature_num s)%Z) (Hlb : (0 <= loop_bars s)%Z)
    (Htimes : (0 <= loop_times s)%Z)
    (Hlabel : update_duration_display s = DurationLoopTimes total times) :
  inject_Z (frame_count (_export_thread s)) / fps s <= total.
Proof.
  unfold is_bars in Hbars. apply andb_true_iff in Hbars. destruct Hbars as [He Hm].
  assert (Hw : words s <> []).
  { intros E. unfold update_duration_display in Hlabel. rewrite E in Hlabel. discriminate. }
  assert (Ht : total = inject_Z (loop_bars s) * get_bar_seconds s * inject_Z (loop_times s)).
  { unfold update_duration_display in Hlabel.
    destruct (words s); [contradiction|].
    rewrite He, Hm, Hfin in Hlabel. inversion Hlabel. reflexivity. }
  pose proof (fps_pos s Hfps) as Hf.
  destruct (export_frame_counter_aux s) as (C & _ & N). rewrite C, N.
  assert (Hloops : loops s = loop_times s) by (unfold loops; rewrite He, Hfin; reflexivity).
  assert (Hlim : bar_limit s = Some (py_int (inject_Z (loop_bars s) * get_bar_seconds s * fps s))).
  { unfold bar_limit, is_bars. rewrite He, Hm. reflexivity. }
  set (B := inject_Z (loop_bars s) * get_bar_seconds s) in *.
  assert (HB : 0 <= B).
  { unfold B, get_bar_seconds.
    assert (0 < inject_Z (bpm s)) by (unfold Qlt; simpl; lia).
    assert (0 <= inject_Z (time_signature_num s)) by (rewrite <- (Zle_Qle 0); lia).
    assert (0 <= inject_Z (loop_bars s)) by (rewrite <- (Zle_Qle 0); lia).
    assert (0 <= inject_Z (time_signature_num s) * 60 / inject_Z (bpm s)).
    { apply Qle_shift_div_l; [assumption | nra]. }
    nra. }
  assert (HBf : 0 <= B * fps s) by nra.
  destruct (py_int_bounds _ HBf) as [P0 _].
  assert (Hp0 : (0 <= py_int (B * fps s))%Z).
  { rewrite py_int_floor by exact HBf. change 0%Z with (Qfloor 0).
    apply Qfloor_resp_le. exact HBf. }
  pose proof (pass_written_within_limit s _ Hlim) as Hpass.
  rewrite <- export_pass_init_written in Hpass.
  set (n := len (written (export_pass s export_init))) in *.
  assert (Hn0 : (0 <= n)%Z) by (unfold n, len; lia).
  rewrite Hloops, Ht.
  apply Qle_shift_div_r; [exact Hf|].
  rewrite inject_Z_mult.
  assert (Hn : inject_Z n <= B * fps s).
  { assert (inject_Z n <= inject_Z (py_int (B * fps s))) by (rewrite <- Zle_Qle; lia). lra. }
  assert (Hn' : 0 <= inject_Z n) by (rewrite <- (Zle_Qle 0); exact Hn0).
  rewrite Z.max_r by exact Htimes.
  assert (0 <= inject_Z (loop_times s)) by (rewrite <- (Zle_Qle 0); lia). nra.
Qed.

Lemma bars_export_within_displayed_duration_witness :
  inject_Z (frame_count (_export_thread overrun_settings)) / fps overrun_settings
  <= inject_Z 1 * get_bar_seconds overrun_settings * inject_Z 1.
Proof.
  apply (bars_export_within_displayed_duration overrun_settings
           (inject_Z 1 * get_bar_seconds overrun_settings * inject_Z 1) 1);
    try reflexivity; discriminate.
Defined.

(** ** The live loop on the ideal clock *)

Lemma sleep_now (d : Q) (st : LiveState) : now (sleep d st) == now st + d.
Proof. cbn [sleep now]. apply Qred_correct. Qed.

Lemma fade_in_step_now (s : Settings) (start : Q) (word : string) (prev_word : option string)
    (st : LiveState) (i : Z) :
  now (fade_in_step s start word prev_word st i) == now st + fade_in s / inject_Z fade_steps.
Proof.
  unfold fade_in_step. rewrite sleep_now.
  destruct (Qltb (gap s) 0 && truthy prev_word); cbn [emit now];
    rewrite metronome_poll_now; reflexivity.
Qed.

Lemma fade_out_step_now (s : Settings) (start : Q) (word : string) (st : LiveState) (i : Z) :
  now (fade_out_step s start word st i) == now st + fade_out s / inject_Z fade_steps.
Proof.
  unfold fade_out_step. rewrite sleep_now. cbn [emit now].
  rewrite metronome_poll_now. reflexivity.
Qed.

Lemma fold_steps_now (step : LiveState -> Z -> LiveState) (d : Q) (idxs : list Z) (st : LiveState) :
  (forall st i, now (step st i) == now st + d) ->
  now (fold_left step idxs st) == now st + inject_Z (len idxs) * d.
Proof.
  intros H. revert st. unfold len. induction idxs as [|i rest IH]; intros st.
  - simpl. ring.
  - cbn [fold_left List.length]. rewrite IH, H, Nat2Z.inj_succ. unfold Z.succ.
    rewrite inject_Z_plus. ring.
Qed.

Lemma len_range_fade_steps : len (range (fade_steps + 1)) = 21%Z.
Proof. reflexivity. Qed.

Lemma py_max_ge_r (a b : Q) : b <= py_max a b.
Proof.
  unfold py_max. destruct (Qltb a b) eqn:E; [lra|]. apply Qltb_ge in E. exact E.
Qed.

(** The clock after one word, gap >= 0. *)
Lemma live_word_duration (s : Settings) (start : Q) (word : string)
    (prev_word : option string) (st : LiveState) :
  (0 < bpm s)%Z -> 0 <= gap s ->
  now st + (word_dur s + (fade_in s + fade_out s) * (1 # 20) + gap s)
  <= now (live_word s start word prev_word st).
Proof.
  intros Hbpm Hgap.
  pose proof (fade_in_nonneg s Hbpm) as Hi. pose proof (fade_out_nonneg s Hbpm) as Ho.
  unfold live_word.
  set (st1 := if Qltb 0 (fade_in s) then _ else _).
  assert (H1 : now st + fade_in s * (21 # 20) <= now st1).
  { unfold st1. destruct (Qltb 0 (fade_in s)) eqn:F.
    - rewrite (fold_steps_now _ (fade_in s / inject_Z fade_steps))
        by (intros; apply fade_in_step_now).
      rewrite len_range_fade_steps.
      assert (E : inject_Z 21 * (fade_in s / inject_Z fade_steps) == fade_in s * (21 # 20))
        by (unfold fade_steps; field).
      rewrite E. lra.
    - apply Qltb_ge in F. cbn [emit now]. nra. }
  set (main_dur := py_max (1 # 100) (word_dur s - fade_in s - fade_out s)).
  set (st2 := busy_wait s start main_dur st1).
  assert (H2 : now st1 + (word_dur s - fade_in s - fade_out s) <= now st2).
  { pose proof (busy_wait_reaches s start main_dur st1) as B.
    pose proof (py_max_ge_r (1 # 100) (word_dur s - fade_in s - fade_out s)) as M.
    fold main_dur in M. fold st2 in B. lra. }
  set (st3 := if Qltb 0 (fade_out s) && Qleb 0 (gap s) then _ else _).
  assert (H3 : now st2 + fade_out s * (21 # 20) <= now st3).
  { unfold st3. apply Qleb_le in Hgap. rewrite Hgap, andb_true_r.
    destruct (Qltb 0 (fade_out s)) eqn:F.
    - rewrite (fold_steps_now _ (fade_out s / inject_Z fade_steps))
        by (intros; apply fade_out_step_now).
      rewrite len_range_fade_steps.
      assert (E : inject_Z 21 * (fade_out s / inject_Z fade_steps) == fade_out s * (21 # 20))
        by (unfold fade_steps; field).
      rewrite E. lra.
    - apply Qltb_ge in F. nra. }
  assert (H4 : now st3 + gap s
               <= now (if Qltb 0 (gap s)
                       then busy_wait s start (gap s) (emit (Clear (now st3)) st3)
                       else st3)).
  { destruct (Qltb 0 (gap s)) eqn:G.
    - pose proof (busy_wait_reaches s start (gap s) (emit (Clear (now st3)) st3)) as B.
      cbn [emit now] in B. exact B.
    - apply Qltb_ge in G. lra. }
  lra.
Qed.

Lemma live_words_duration (s : Settings) (loop_start bar_duration : Q) (prev : option string)
    (ws : list string) (st : LiveState) :
  is_bars s = false -> (0 < bpm s)%Z -> 0 <= gap s ->
  now st + inject_Z (len ws) * (word_dur s + (fade_in s + fade_out s) * (1 # 20) + gap s)
  <= now (live_words s loop_start bar_duration prev ws st).
Proof.
  intros Hb Hbpm Hgap. revert prev st. unfold len.
  induction ws as [|w rest IH]; intros prev st.
  - cbn [live_words List.length]. change (inject_Z (Z.of_nat 0)) with 0. lra.
  - cbn [live_words List.length]. rewrite Hb. cbn [andb].
    specialize (IH (Some w) (live_word s loop_start w prev st)).
    pose proof (live_word_duration s loop_start w prev st Hbpm Hgap) as W.
    rewrite Nat2Z.inj_succ. unfold Z.succ. rewrite inject_Z_plus.
    change (inject_Z 1) with 1. lra.
Qed.

(** X15.  On the ideal clock a live pass over all words (gap >= 0) is never
    shorter than the duration the display announces, and it is longer by
    at least one twentieth of both fades per word plus the gap after the
    last word: every fade loop sleeps 21 steps of a twentieth of the fade,
    and the gap is waited after every word, the last one too. *)
Theorem live_pass_outlasts_display (s : Settings) (t0 : Q)
    (Hmode : is_bars s = false) (Hbpm : (0 < bpm s)%Z) (Hgap : 0 <= gap s)
    (Hstart : (1 <= start_word s <= len (words s))%Z) :
  single_pass s
  + inject_Z (len (words s) - start_word s + 1) * ((fade_in s + fade_out s) * (1 # 20))
  + gap s
  <= now (live_pass s t0) - t0.
Proof.
  unfold live_pass.
  set (ws := skipn (Z.to_nat (start_word s - 1)) (words s)).
  pose proof (live_words_duration s t0 (inject_Z (loop_bars s) * get_bar_seconds s) None ws
                {| now := t0; metro := metro_init; events := [] |} Hmode Hbpm Hgap) as H.
  cbn [now] in H.
  assert (Hlen : len ws = (len (words s) - start_word s + 1)%Z).
  { unfold ws, len. rewrite length_skipn. unfold len in Hstart. lia. }
  rewrite Hlen in H.
  pose proof (word_dur_nonneg s Hbpm) as Hw.
  set (n := inject_Z (len (words s) - start_word s + 1)) in *.
  assert (Hn : 1 <= n) by (unfold n; rewrite <- (Zle_Qle 1); lia).
  assert (Hsp : single_pass s == n * word_dur s + (n - 1) * gap s).
  { unfold single_pass. rewrite py_max_spec.
    replace (len (words s) - (start_word s - 1))%Z with (len (words s) - start_word s + 1)%Z by lia.
    fold n.
    replace (len (words s) - start_word s + 1 - 1)%Z with (len (words s) - start_word s + 1 + -1)%Z
      by lia.
    rewrite inject_Z_plus. fold n. change (inject_Z (-1)) with (-1).
    rewrite Q.max_r by nra. ring. }
  rewrite Hsp. nra.
Qed.

Lemma live_pass_outlasts_display_witness :
  single_pass (defaults ["one"; "two"]%string)
  + inject_Z (len (words (defaults ["one"; "two"]%string))
              - start_word (defaults ["one"; "two"]%string) + 1)
    * ((fade_in (defaults ["one"; "two"]%string) + fade_out (defaults ["one"; "two"]%string))
       * (1 # 20))
  + gap (defaults ["one"; "two"]%string)
  <= now (live_pass (defaults ["one"; "two"]%string) 0) - 0.
Proof.
  apply (live_pass_outlasts_display (defaults ["one"; "two"]%string) 0);
    [reflexivity | reflexivity | discriminate | split; discriminate].
Defined.

(** ** The steps of a live fade *)

Lemma phase_opacities_app (ph : Phase) (a b : list LiveEvent) :
  phase_opacities ph (a ++ b) = phase_opacities ph a ++ phase_opacities ph b.
Proof. unfold phase_opacities. apply flat_map_app. Qed.

Lemma phase_opacities_ticks (ph : Phase) (st st' : LiveState) :
  appends is_tick st st' -> phase_opacities ph (events st') = phase_opacities ph (events st).
Proof.
  intros (added & E & F). rewrite E, phase_opacities_app.
  assert (Z : phase_opacities ph added = []).
  { clear E. induction F as [|e l He _ IH]; [reflexivity|].
    destruct e; try contradiction. exact IH. }
  rewrite Z. apply app_nil_r.
Qed.

Lemma phase_opacities_fold (ph : Phase) (step : LiveState -> Z -> LiveState)
    (contrib : Z -> list Q) (idxs : list Z) (st : LiveState) :
  (forall st i, phase_opacities ph (events (step st i))
                = phase_opacities ph (events st) ++ contrib i) ->
  phase_opacities ph (events (fold_left step idxs st))
  = phase_opacities ph (events st) ++ flat_map contrib idxs.
Proof.
  intros H. revert st. induction idxs as [|i rest IH]; intros st; cbn [fold_left flat_map].
  - now rewrite app_nil_r.
  - rewrite IH, H, <- app_assoc. reflexivity.
Qed.

Lemma fade_in_step_opacities (ph : Phase) (s : Settings) (start : Q) (word : string)
    (prev_word : option string) (st : LiveState) (i : Z) :
  phase_opacities ph (events (fade_in_step s start word prev_word st i))
  = phase_opacities ph (events st)
    ++ (if Phase_eqb FadeIn ph then [inject_Z i / inject_Z fade_steps] else []).
Proof.
  unfold fade_in_step. cbn [sleep events].
  destruct (Qltb (gap s) 0 && truthy prev_word); cbn [emit events];
    rewrite phase_opacities_app, (phase_opacities_ticks ph _ _ (appends_metronome_poll s start st));
    cbn [phase_opacities flat_map]; rewrite app_nil_r; reflexivity.
Qed.

Lemma fade_out_step_opacities (ph : Phase) (s : Settings) (start : Q) (word : string)
    (st : LiveState) (i : Z) :
  phase_opacities ph (events (fade_out_step s start word st i))
  = phase_opacities ph (events st)
    ++ (if Phase_eqb FadeOut ph then [1 - inject_Z i / inject_Z fade_steps] else []).
Proof.
  unfold fade_out_step. cbn [sleep emit events].
  rewrite phase_opacities_app, (phase_opacities_ticks ph _ _ (appends_metronome_poll s start st)).
  cbn [phase_opacities flat_map]. rewrite app_nil_r. reflexivity.
Qed.

Lemma flat_map_singleton {A B} (f : A -> B) (l : list A) :
  flat_map (fun x => [f x]) l = map f l.
Proof. induction l as [|x l IH]; simpl; [reflexivity | now rewrite IH]. Qed.

Lemma flat_map_nil {A B} (l : list A) : flat_map (fun _ : A => @nil B) l = [].
Proof. induction l as [|x l IH]; simpl; [reflexivity | exact IH]. Qed.

Lemma live_word_opacities (ph : Phase) (s : Settings) (start t : Q) (m : Metro)
    (word : string) (prev_word : option string) :
  phase_opacities ph (events (live_word s start word prev_word (mkLive t m [])))
  = (if Qltb 0 (fade_in s)
     then flat_map (fun i => if Phase_eqb FadeIn ph
                             then [inject_Z i / inject_Z fade_steps] else [])
            (range (fade_steps + 1))
     else if Phase_eqb Hold ph then [1] else [])
    ++ (if Qltb 0 (fade_out s) && Qleb 0 (gap s)
        then flat_map (fun i => if Phase_eqb FadeOut ph
                                then [1 - inject_Z i / inject_Z fade_steps] else [])
               (range (fade_steps + 1))
        else []).
Proof.
  unfold live_word.
  set (st0 := mkLive t m []).
  set (st1 := if Qltb 0 (fade_in s) then _ else _).
  set (st2 := busy_wait s start (py_max _ _) st1).
  set (st3 := if Qltb 0 (fade_out s) && Qleb 0 (gap s) then _ else _).
  assert (H1 : phase_opacities ph (events st1)
               = if Qltb 0 (fade_in s)
                 then flat_map (fun i => if Phase_eqb FadeIn ph
                                         then [inject_Z i / inject_Z fade_steps] else [])
                        (range (fade_steps + 1))
                 else if Phase_eqb Hold ph then [1] else []).
  { unfold st1. destruct (Qltb 0 (fade_in s)).
    - rewrite (phase_opacities_fold ph _ _ _ _ (fade_in_step_opacities ph s start word prev_word)).
      reflexivity.
    - cbn [emit events st0 app phase_opacities flat_map]. now rewrite app_nil_r. }
  assert (H2 : phase_opacities ph (events st2) = phase_opacities ph (events st1)).
  { apply phase_opacities_ticks. apply appends_busy_wait. }
  assert (H3 : phase_opacities ph (events st3)
               = phase_opacities ph (events st2)
                 ++ (if Qltb 0 (fade_out s) && Qleb 0 (gap s)
                     then flat_map (fun i => if Phase_eqb FadeOut ph
                                             then [1 - inject_Z i / inject_Z fade_steps] else [])
                            (range (fade_steps + 1))
                     else [])).
  { unfold st3. destruct (Qltb 0 (fade_out s) && Qleb 0 (gap s)).
    - apply (phase_opacities_fold ph _ _ _ _ (fade_out_step_opacities ph s start word)).
    - now rewrite app_nil_r. }
  assert (H4 : phase_opacities ph
                 (events (if Qltb 0 (gap s)
                          then busy_wait s start (gap s) (emit (Clear (now st3)) st3)
                          else st3))
               = phase_opacities ph (events st3)).
  { destruct (Qltb 0 (gap s)); [|reflexivity].
    rewrite (phase_opacities_ticks ph _ _ (appends_busy_wait s start (gap s) _)).
    cbn [emit events]. rewrite phase_opacities_app. cbn [phase_opacities flat_map].
    apply app_nil_r. }
  rewrite H4, H3, H2, H1. reflexivity.
Qed.

(** X16.  A live fade-in, when the fade-in duration is > 0, posts exactly
    21 steps with the opacities 0, 1/20, ..., 1, both ends included, and
    none otherwise; a live fade-out, when it takes place, posts the 21
    opacities 1, 19/20, ..., 0. *)
Theorem live_fade_steps (s : Settings) (start t : Q) (m : Metro)
    (word : string) (prev_word : option string) :
  phase_opacities FadeIn (events (live_word s start word prev_word (mkLive t m [])))
  = (if Qltb 0 (fade_in s)
     then map (fun i => inject_Z i / inject_Z fade_steps) (range 21) else []) /\
  phase_opacities FadeOut (events (live_word s start word prev_word (mkLive t m [])))
  = (if Qltb 0 (fade_out s) && Qleb 0 (gap s)
     then map (fun i => 1 - inject_Z i / inject_Z fade_steps) (range 21) else []).
Proof.
  rewrite !live_word_opacities. cbn [Phase_eqb].
  rewrite !flat_map_nil, !flat_map_singleton.
  split.
  - destruct (Qltb 0 (fade_in s)), (Qltb 0 (fade_out s) && Qleb 0 (gap s));
      rewrite ?app_nil_r; reflexivity.
  - destruct (Qltb 0 (fade_in s)), (Qltb 0 (fade_out s) && Qleb 0 (gap s));
      rewrite ?app_nil_r; reflexivity.
Qed.

(** ** Number of live passes *)

Lemma playback_passes_finite (s : Settings) :
  loop_enabled s = true -> loop_infinite s = false ->
  forall (fuel : nat) (lc : Z) (t : Q),
    (0 <= lc < loop_times s)%Z -> (Z.to_nat (loop_times s - lc) <= fuel)%nat ->
    exists passes,
      playback_passes fuel s lc t = Some passes /\
      len passes = (loop_times s - lc)%Z.
Proof.
  intros He Hi. induction fuel as [|k IH]; intros lc t Hlc Hfuel; [lia|].
  cbn [playback_passes]. rewrite He, Hi. cbn [negb andb].
  destruct (Z.leb_spec (loop_times s) (lc + 1)) as [Hdone|Hmore].
  - eexists. split; [reflexivity|]. unfold len. simpl. lia.
  - destruct (IH (lc + 1)%Z (now (live_pass s t))) as (passes & E & L); [lia | lia |].
    rewrite E. eexists. split; [reflexivity|].
    unfold len in *. cbn [List.length]. lia.
Qed.

(** X17.  Without a stop the live loop plays one pass when looping is off
    and exactly [loop_times] passes, as many as the exporter renders, when
    a finite loop is on; with the infinite flag set it never ends on its
    own, whereas the exporter renders a single pass. *)
Theorem live_pass_count (s : Settings) (t : Q) (Htimes : (1 <= loop_times s)%Z) :
  (loop_enabled s = false ->
   forall fuel, playback_passes (S fuel) s 0 t = Some [live_pass s t]) /\
  (loop_enabled s = true -> loop_infinite s = false ->
   forall fuel, (Z.to_nat (loop_times s) <= fuel)%nat ->
     exists passes,
       playback_passes fuel s 0 t = Some passes /\
       len passes = loop_times s /\ len passes = loops s) /\
  (loop_enabled s = true -> loop_infinite s = true ->
   forall fuel lc t', playback_passes fuel s lc t' = None).
Proof.
  split; [|split].
  - intros He fuel. cbn [playback_passes]. rewrite He. reflexivity.
  - intros He Hi fuel Hfuel.
    destruct (playback_passes_finite s He Hi fuel 0 t) as (passes & E & L);
      [lia | rewrite Z.sub_0_r; exact Hfuel |].
    exists passes. split; [exact E|]. rewrite Z.sub_0_r in L.
    split; [exact L|]. unfold loops. rewrite He, Hi. exact L.
  - intros He Hi. induction fuel as [|k IH]; intros lc t'; [reflexivity|].
    cbn [playback_passes]. rewrite He, Hi. cbn [negb andb]. rewrite IH. reflexivity.
Qed.

Lemma live_pass_count_witness :
  (1 <= loop_times (defaults ["one"]%string))%Z /\
  playback_passes 1 (defaults ["one"]%string) 0 0
  = Some [live_pass (defaults ["one"]%string) 0].
Proof.
  split; [simpl; lia|].
  apply (live_pass_count (defaults ["one"]%string) 0); [simpl; lia | reflexivity].
Defined.

(** ** Splitting the text into words *)

Lemma has_space_snoc (w : string) (c : ascii) :
  has_space (w ++ String c EmptyString) = has_space w || is_space c.
Proof.
  induction w as [|d w IH].
  - change (is_space c || false = false || is_space c). destruct (is_space c); reflexivity.
  - change (is_space d || has_space (w ++ String c EmptyString)
            = is_space d || has_space w || is_space c).
    rewrite IH. destruct (is_space d), (has_space w), (is_space c); reflexivity.
Qed.

Lemma snoc_not_empty (w : string) (c : ascii) :
  (w ++ String c EmptyString)%string <> EmptyString.
Proof. destruct w; discriminate. Qed.

Lemma split_from_ok (t word : string) :
  has_space word = false -> Forall word_ok (split_from word t).
Proof.
  revert word. induction t as [|c r IH]; intros word Hw; cbn [split_from].
  - destruct word; repeat constructor; [discriminate | exact Hw].
  - destruct (is_space c) eqn:S.
    + destruct word.
      * apply IH. reflexivity.
      * constructor; [split; [discriminate | exact Hw] | apply IH; reflexivity].
    + apply IH. rewrite has_space_snoc, Hw, S. reflexivity.
Qed.

Lemma split_lstrip (t : string) : py_split (lstrip t) = py_split t.
Proof.
  unfold py_split. induction t as [|c r IH]; [reflexivity|].
  cbn [lstrip split_from]. destruct (is_space c) eqn:S; [exact IH|].
  cbn [split_from]. rewrite S. reflexivity.
Qed.

Lemma split_from_rstrip (t word : string) : split_from word (rstrip t) = split_from word t.
Proof.
  revert word. induction t as [|c r IH]; intros word; [reflexivity|].
  cbn [rstrip]. destruct (rstrip r) as [|d r'] eqn:R.
  - destruct (is_space c) eqn:S.
    + cbn [split_from]. rewrite S. rewrite <- (IH EmptyString). cbn [split_from].
      destruct word; reflexivity.
    + cbn [split_from]. rewrite S. rewrite <- IH. reflexivity.
  - cbn [split_from]. destruct (is_space c).
    + rewrite <- (IH EmptyString). destruct word; reflexivity.
    + rewrite <- IH. reflexivity.
Qed.

Lemma append_empty (a : string) : (a ++ EmptyString)%string = a.
Proof.
  induction a as [|d a IH]; [reflexivity|].
  change (String d (a ++ EmptyString)%string = String d a). now rewrite IH.
Qed.

Lemma append_snoc_assoc (a w : string) (c : ascii) :
  ((a ++ String c EmptyString) ++ w)%string = (a ++ String c w)%string.
Proof.
  induction a as [|d a IH]; [reflexivity|].
  change (String d ((a ++ String c EmptyString) ++ w)%string = String d (a ++ String c w)%string).
  now rewrite IH.
Qed.

Lemma split_from_word (w acc rest : string) :
  has_space w = false -> split_from acc (w ++ rest) = split_from (acc ++ w) rest.
Proof.
  revert acc. induction w as [|c w IH]; intros acc H.
  - change (EmptyString ++ rest)%string with rest. now rewrite append_empty.
  - cbn [has_space] in H. apply orb_false_iff in H. destruct H as [Hc Hw].
    change (String c w ++ rest)%string with (String c (w ++ rest)%string).
    cbn [split_from]. rewrite Hc, (IH _ Hw), append_snoc_assoc. reflexivity.
Qed.

Lemma split_join_space (ws : list string) :
  Forall word_ok ws -> py_split (join_space ws) = ws.
Proof.
  unfold py_split. induction 1 as [|w rest [Hne Hsp] Hrest IH]; [reflexivity|].
  destruct rest as [|w' rest'].
  - cbn [join_space]. rewrite <- (append_empty w) at 1.
    rewrite (split_from_word w EmptyString EmptyString Hsp).
    change (EmptyString ++ w)%string with w. cbn [split_from].
    destruct w; [contradiction | reflexivity].
  - change (join_space (w :: w' :: rest'))
      with (w ++ String " " (join_space (w' :: rest')))%string.
    rewrite (split_from_word w EmptyString _ Hsp).
    change (EmptyString ++ w)%string with w. cbn [split_from].
    change (is_space " ") with true. cbn iota.
    rewrite IH. destruct w; [contradiction | reflexivity].
Qed.

(** X18.  [str.split()] as [load_text] uses it: every word it yields is
    non-empty and free of whitespace; the [strip()] before it changes
    nothing; and it undoes joining such words with single spaces. *)
Theorem split_words (t : string) (ws : list string) :
  Forall word_ok (py_split t) /\
  py_split (strip t) = py_split t /\
  (Forall word_ok ws -> py_split (join_space ws) = ws).
Proof.
  split; [apply split_from_ok; reflexivity|].
  split; [|apply split_join_space].
  unfold strip, py_split. rewrite split_from_rstrip. apply split_lstrip.
Qed.

Example split_probe :
  py_split (String "009" " one  two" ++ String "010" "three " ++ String "160" "")
  = ["one"; "two"; "three"]%string.
Proof. reflexivity. Qed.

(** ** The start index *)

Lemma py_int_between (val : Q) (lo hi : Z) :
  (0 <= lo)%Z -> inject_Z lo <= val -> val <= inject_Z hi -> (lo <= py_int val <= hi)%Z.
Proof.
  intros H0 Hlo Hhi.
  assert (Hv : 0 <= val).
  { assert (0 <= inject_Z lo) by (rewrite <- (Zle_Qle 0); exact H0). lra. }
  rewrite (py_int_floor _ Hv). split.
  - rewrite <- (Qfloor_Z lo). apply Qfloor_resp_le. exact Hlo.
  - rewrite <- (Qfloor_Z hi). apply Qfloor_resp_le. exact Hhi.
Qed.

Lemma py_int_Z (z : Z) : py_int (inject_Z z) = z.
Proof. apply py_int_inject_Z. reflexivity. Qed.

Lemma nav_ok_on_start_change (val : Q) (p : Player) :
  nav_ok p ->
  (words (cfg p) <> [] -> (1 <= py_int val <= len (words (cfg p)))%Z) ->
  nav_ok (on_start_change val p).
Proof.
  intros [Hw Hn] Hv. split; [exact Hw|].
  intros Hne. split; [apply Hv; exact Hne | apply Hn; exact Hne].
Qed.

Lemma len_pos_of_nonempty {A} (l : list A) : l <> [] -> (1 <= len l)%Z.
Proof. destruct l; [contradiction|]. intros _. unfold len. simpl. lia. Qed.

Lemma nav_ok_load_text (p : Player) : nav_ok (load_text p).
Proof.
  unfold load_text.
  pose proof (split_from_ok (strip (text_input p)) EmptyString eq_refl) as Hok.
  fold (py_split (strip (text_input p))) in Hok.
  destruct (py_split (strip (text_input p))) as [|w ws] eqn:E.
  - split; [constructor | intros H; contradiction].
  - split; [exact Hok|]. intros _. split; [|reflexivity].
    change (1 <= 1 <= len (w :: ws))%Z. unfold len. cbn [List.length]. lia.
Qed.

Lemma nav_ok_adjust_start (delta : Z) (p : Player) : nav_ok p -> nav_ok (adjust_start delta p).
Proof.
  intros H. unfold adjust_start. apply nav_ok_on_start_change; [exact H|].
  intros Hne. rewrite py_int_Z. pose proof (len_pos_of_nonempty _ Hne) as Hl.
  destruct (words (cfg p)); [contradiction|]. lia.
Qed.

Lemma nav_ok_play (p : Player) : nav_ok p -> nav_ok (play p).
Proof.
  intros H. unfold play.
  set (p1 := match words (cfg p) with [] => load_text p | _ => p end).
  assert (H1 : nav_ok p1).
  { unfold p1. destruct (words (cfg p)); [apply nav_ok_load_text | exact H]. }
  destruct (words (cfg p1)) eqn:E; [exact H1|].
  destruct (is_paused p1); [|destruct (is_playing p1)]; try exact H1;
    destruct H1 as [Hw Hn]; split; assumption.
Qed.

Lemma nav_ok_run_op (p : Player) (op : UiOp) : nav_ok p -> nav_ok (run_op p op).
Proof.
  intros H. destruct op; cbn [run_op].
  - exact H.
  - apply nav_ok_load_text.
  - destruct (Qleb 1 val && Qleb val (inject_Z (slider_to p))) eqn:G; [|exact H].
    apply andb_true_iff in G. destruct G as [G1 G2].
    apply Qleb_le in G1, G2.
    apply nav_ok_on_start_change; [exact H|].
    intros Hne. destruct H as [_ Hn]. destruct (Hn Hne) as [_ Hs]. rewrite Hs in G2.
    apply py_int_between; [lia | exact G1 | exact G2].
  - apply nav_ok_adjust_start. exact H.
  - unfold goto_first. apply nav_ok_on_start_change; [exact H|].
    intros Hne. pose proof (len_pos_of_nonempty _ Hne).
    change (py_int 1) with 1%Z. lia.
  - unfold goto_last. destruct (words (cfg p)) eqn:E; [exact H|].
    rewrite <- E. apply nav_ok_on_start_change; [exact H|].
    intros Hne. rewrite py_int_Z. pose proof (len_pos_of_nonempty _ Hne). lia.
  - apply nav_ok_play. exact H.
  - exact H.
  - exact H.
  - unfold on_seek. destruct (words (cfg p)); exact H.
Qed.

(** X19.  Whatever the user does after start-up (typing, loading the text,
    moving the start slider, the navigation buttons, play, pause, stop,
    seek), whenever words are loaded the start index is a valid 1-based
    position in them, [1 <= start_word <= len(words)], and every loaded
    word is non-empty and free of whitespace. *)
Theorem start_index_stays_valid (t : string) (ops : list UiOp) :
  let p := fold_left run_op ops (player_init t) in
  Forall word_ok (words (cfg p)) /\
  (words (cfg p) <> [] -> (1 <= start_word (cfg p) <= len (words (cfg p)))%Z).
Proof.
  assert (G : forall ops p, nav_ok p -> nav_ok (fold_left run_op ops p)).
  { induction ops0 as [|op rest IH]; intros p H; [exact H|].
    cbn [fold_left]. apply IH. apply nav_ok_run_op. exact H. }
  assert (I : nav_ok (player_init t)).
  { split; [constructor | intros H; contradiction]. }
  destruct (G ops _ I) as [Hw Hn].
  split; [exact Hw|]. intros Hne. apply Hn. exact Hne.
Qed.

Example navigation_probe :
  let p := fold_left run_op
             [LoadText; AdjustStart 10; AdjustStart (-1); Play; Stop]
             (player_init "a b c d"%string) in
  (words (cfg p), start_word (cfg p), current_word_index p, threads_started p)
  = (["a"; "b"; "c"; "d"]%string, 3%Z, 2%Z, 1%nat).
Proof. reflexivity. Qed.

(** X20.  With words loaded, [adjust_start] moves the start index by
    [delta] when that stays within the words and otherwise stops at the
    first or the last word; the word shown is then the start word,
    [current_word_index = start_word - 1], a valid 0-based index. *)
Theorem adjust_start_clamps (delta : Z) (p : Player)
    (Hwords : words (cfg p) <> []) :
  let n := len (words (cfg p)) in
  let s' := start_word (cfg (adjust_start delta p)) in
  (1 <= s' <= n)%Z /\
  current_word_index (adjust_start delta p) = (s' - 1)%Z /\
  ((1 <= start_word (cfg p) + delta <= n)%Z -> s' = (start_word (cfg p) + delta)%Z) /\
  ((start_word (cfg p) + delta < 1)%Z -> s' = 1%Z) /\
  ((n < start_word (cfg p) + delta)%Z -> s' = n) /\
  words (cfg (adjust_start delta p)) = words (cfg p).
Proof.
  intros n s'. pose proof (len_pos_of_nonempty _ Hwords) as Hn. fold n in Hn.
  assert (E : s' = Z.max 1 (Z.min n (start_word (cfg p) + delta))).
  { unfold s', adjust_start. cbn [on_start_change cfg set_start_word start_word].
    rewrite py_int_Z. unfold n. destruct (words (cfg p)); [contradiction | reflexivity]. }
  assert (C : current_word_index (adjust_start delta p) = (s' - 1)%Z).
  { rewrite E. unfold adjust_start. cbn [on_start_change current_word_index].
    rewrite py_int_Z. fold n.
    destruct (words (cfg p)) eqn:W; [contradiction|].
    destruct (Z.ltb_spec 0 (Z.max 1 (Z.min n (start_word (cfg p) + delta)))); [|lia].
    destruct (Z.leb_spec (Z.max 1 (Z.min n (start_word (cfg p) + delta))) n); [|lia].
    reflexivity. }
  split; [lia|]. split; [exact C|].
  repeat split; try (intros; lia).
Qed.

Lemma adjust_start_clamps_witness :
  start_word (cfg (adjust_start 10 (load_text (player_init "a b c"%string)))) = 3%Z.
Proof.
  apply (adjust_start_clamps 10 (load_text (player_init "a b c"%string)));
    [discriminate | vm_compute; reflexivity].
Defined.

(** ** Play, pause and stop *)

Lemma play_with_words (p : Player) :
  words (cfg p) <> [] ->
  play p =
  if is_paused p then
    {| cfg := cfg p; text_input := text_input p; slider_to := slider_to p;
       is_playing := is_playing p; is_paused := false;
       current_word_index := current_word_index p; loop_current := loop_current p;
       threads_started := threads_started p |}
  else if is_playing p then p
  else
    {| cfg := cfg p; text_input := text_input p; slider_to := slider_to p;
       is_playing := true; is_paused := false;
       current_word_index := (start_word (cfg p) - 1)%Z; loop_current := 0;
       threads_started := S (threads_started p) |}.
Proof.
  intros H. unfold play. destruct (words (cfg p)) eqn:W; [contradiction|].
  rewrite W. reflexivity.
Qed.

(** X21.  With words loaded: [play] while a playback is running starts no
    second playback thread; [play] after [pause] only clears the pause
    flag, leaving the position and the loop counter where they were; and
    [pause] pressed while nothing is playing makes the next [play] a mere
    un-pause, so that playback starts only at the [play] after that. *)
Theorem transport_sequences (p : Player) (Hwords : words (cfg p) <> []) :
  (is_playing p = true -> threads_started (play p) = threads_started p) /\
  (is_playing p = true ->
   play (pause p) =
   {| cfg := cfg p; text_input := text_input p; slider_to := slider_to p;
      is_playing := true; is_paused := false;
      current_word_index := current_word_index p; loop_current := loop_current p;
      threads_started := threads_started p |}) /\
  (is_playing p = false ->
   is_playing (play (pause p)) = false /\
   threads_started (play (pause p)) = threads_started p /\
   is_playing (play (play (pause p))) = true /\
   threads_started (play (play (pause p))) = S (threads_started p) /\
   current_word_index (play (play (pause p))) = (start_word (cfg p) - 1)%Z).
Proof.
  assert (E : play (pause p) =
              {| cfg := cfg p; text_input := text_input p; slider_to := slider_to p;
                 is_playing := is_playing p; is_paused := false;
                 current_word_index := current_word_index p; loop_current := loop_current p;
                 threads_started := threads_started p |}).
  { rewrite (play_with_words (pause p)) by exact Hwords. reflexivity. }
  split; [|split].
  - intros H. rewrite (play_with_words p Hwords).
    destruct (is_paused p); [reflexivity|]. rewrite H. reflexivity.
  - intros H. rewrite E, H. reflexivity.
  - intros H. rewrite E.
    rewrite (play_with_words _) by exact Hwords.
    cbn [is_paused is_playing]. rewrite H. repeat split; reflexivity.
Qed.

Lemma transport_sequences_witness :
  is_playing (play (pause (load_text (player_init "a b"%string)))) = false.
Proof.
  apply (transport_sequences (load_text (player_init "a b"%string)));
    [discriminate | reflexivity].
Defined.

(** ** Export progress *)

(** X22.  The progress percentage the exporter posts before each word lies
    between 0 and 99 and never decreases as the export advances through
    the words and the loops; 100 is posted only after the last frame. *)
Theorem export_progress_range (loop idx loop' idx' nloops nwords : Z)
    (Hloop : (0 <= loop < nloops)%Z) (Hidx : (0 <= idx < nwords)%Z)
    (Hloop' : (0 <= loop' < nloops)%Z) (Hidx' : (0 <= idx' < nwords)%Z)
    (Horder : (loop < loop' \/ (loop = loop' /\ idx <= idx'))%Z) :
  (0 <= export_progress loop idx nloops nwords <= 99)%Z /\
  (export_progress loop idx nloops nwords <= export_progress loop' idx' nloops nwords)%Z.
Proof.
  assert (R : forall l i, (0 <= l < nloops)%Z -> (0 <= i < nwords)%Z ->
             (0 <= l * nwords + i < nloops * nwords)%Z) by (intros; nia).
  assert (Hy : 0 < inject_Z (nloops * nwords)).
  { rewrite <- (Zlt_Qlt 0). specialize (R _ _ Hloop Hidx). lia. }
  assert (V : forall x, (0 <= x < nloops * nwords)%Z ->
             0 <= inject_Z x / inject_Z (nloops * nwords) * 100 /\
             inject_Z x / inject_Z (nloops * nwords) * 100 < 100).
  { intros x [X0 X1].
    assert (0 <= inject_Z x) by (rewrite <- (Zle_Qle 0); exact X0).
    assert (inject_Z x < inject_Z (nloops * nwords)) by (rewrite <- Zlt_Qlt; exact X1).
    assert (0 <= inject_Z x / inject_Z (nloops * nwords))
      by (apply Qle_shift_div_l; [exact Hy | lra]).
    assert (inject_Z x / inject_Z (nloops * nwords) < 1)
      by (apply Qlt_shift_div_r; [exact Hy | lra]).
    split; lra. }
  unfold export_progress.
  destruct (V _ (R _ _ Hloop Hidx)) as [A0 A1].
  destruct (V _ (R _ _ Hloop' Hidx')) as [B0 B1].
  rewrite !py_int_floor by assumption.
  split.
  - split.
    + change 0%Z with (Qfloor 0). apply Qfloor_resp_le. exact A0.
    + pose proof (Qfloor_le (inject_Z (loop * nwords + idx) / inject_Z (nloops * nwords) * 100)) as F.
      assert (L : inject_Z (Qfloor (inject_Z (loop * nwords + idx)
                                    / inject_Z (nloops * nwords) * 100)) < inject_Z 100)
        by (change (inject_Z 100) with 100; lra).
      rewrite <- Zlt_Qlt in L. lia.
  - apply Qfloor_resp_le.
    assert (O : (loop * nwords + idx <= loop' * nwords + idx')%Z) by nia.
    rewrite Zle_Qle in O.
    assert (D : inject_Z (loop * nwords + idx) / inject_Z (nloops * nwords)
                <= inject_Z (loop' * nwords + idx') / inject_Z (nloops * nwords)).
    { apply Qle_shift_div_l; [exact Hy|].
      assert (E : inject_Z (loop * nwords + idx) / inject_Z (nloops * nwords)
                  * inject_Z (nloops * nwords) == inject_Z (loop * nwords + idx))
        by (field; lra).
      lra. }
    lra.
Qed.

Lemma export_progress_range_witness :
  (0 <= export_progress 1 2 2 4 <= 99)%Z.
Proof.
  apply (export_progress_range 1 2 1 3 2 4); lia.
Defined.

Lemma split_words_witness :
  py_split (join_space ["one"; "two"]%string) = ["one"; "two"]%string.
Proof.
  apply (split_words EmptyString ["one"; "two"]%string).
  repeat constructor; discriminate.
Defined.

Lemma start_index_stays_valid_witness :
  (1 <= start_word (cfg (fold_left run_op [LoadText; GotoLast; AdjustStart 1]
                           (player_init "a b c"%string)))
   <= len (words (cfg (fold_left run_op [LoadText; GotoLast; AdjustStart 1]
                         (player_init "a b c"%string)))))%Z.
Proof.
  apply (start_index_stays_valid "a b c"%string [LoadText; GotoLast; AdjustStart 1]).
  discriminate.
Defined.

(** * Truncation, the bar limit and the played pass *)

(** ** The blend under rounding *)

Lemma rounding_exact : rounding (fun x => x).
Proof.
  split.
  - intros x y H. exact H.
  - intros n _. reflexivity.
  - intros x _. apply Qabs_Qle_condition. split; lra.
Qed.

Lemma rounding_grid : rounding grid_round.
Proof.
  split.
  - intros x y H. unfold grid_round.
    assert (F : (Qfloor (x * 1099511627776 + (1 # 2)) <= Qfloor (y * 1099511627776 + (1 # 2)))%Z)
      by (apply Qfloor_resp_le; lra).
    rewrite Zle_Qle in F. lra.
  - intros n _. unfold grid_round.
    assert (E : Qfloor (inject_Z n * 1099511627776 + (1 # 2)) = (n * 1099511627776)%Z).
    { pose proof (Qfloor_le (inject_Z n * 1099511627776 + (1 # 2))) as L.
      pose proof (Qlt_floor (inject_Z n * 1099511627776 + (1 # 2))) as U.
      set (m := Qfloor _) in *.
      assert (E : inject_Z n * 1099511627776 == inject_Z (n * 1099511627776))
        by (rewrite inject_Z_mult; reflexivity).
      rewrite E in L, U. rewrite inject_Z_plus in U. change (inject_Z 1) with 1 in U.
      assert (L' : inject_Z m < inject_Z (n * 1099511627776 + 1))
        by (rewrite inject_Z_plus; change (inject_Z 1) with 1; lra).
      assert (U' : inject_Z (n * 1099511627776 - 1) < inject_Z m).
      { unfold Z.sub. rewrite inject_Z_plus. change (inject_Z (- (1))) with (-1). lra. }
      rewrite <- Zlt_Qlt in L', U'. lia. }
    rewrite E, inject_Z_mult. change (inject_Z 1099511627776) with 1099511627776.
    field.
  - intros x _. unfold grid_round.
    pose proof (Qfloor_le (x * 1099511627776 + (1 # 2))) as L.
    pose proof (Qlt_floor (x * 1099511627776 + (1 # 2))) as U.
    set (m := Qfloor _) in *.
    rewrite inject_Z_plus in U. change (inject_Z 1) with 1 in U.
    apply Qabs_Qle_condition. split; lra.
Qed.

Lemma rounding_compat (rnd : Q -> Q) (x y : Q) : rounding rnd -> x == y -> rnd x == rnd y.
Proof.
  intros H E. apply Qle_antisym; apply (rnd_mono rnd H); rewrite E; apply Qle_refl.
Qed.

Lemma rounding_zero (rnd : Q -> Q) : rounding rnd -> rnd 0 == 0.
Proof. intros H. apply (rnd_int rnd H 0). lia. Qed.

Lemma rounding_one (rnd : Q -> Q) : rounding rnd -> rnd 1 == 1.
Proof. intros H. apply (rnd_int rnd H 1). lia. Qed.

Lemma rounding_bounds (rnd : Q -> Q) (x : Q) :
  rounding rnd -> 0 <= x <= 512 ->
  0 <= rnd x /\ x - (1 # 1000000000) <= rnd x /\ rnd x <= x + (1 # 1000000000).
Proof.
  intros H Hx. pose proof (rnd_near rnd H x Hx) as N.
  apply Qabs_Qle_condition in N.
  pose proof (rnd_mono rnd H 0 x (proj1 Hx)) as M.
  rewrite (rounding_zero rnd H) in M.
  repeat split; lra.
Qed.

(** The rounded interpolation stays within a millionth of the exact one. *)
Lemma blend_fl_close (rnd : Q -> Q) (f b : Z) (opacity : Q) :
  rounding rnd -> (0 <= f <= 255)%Z -> (0 <= b <= 255)%Z -> 0 <= opacity <= 1 ->
  let r := rnd (rnd (inject_Z f * opacity) + rnd (inject_Z b * rnd (1 - opacity))) in
  0 <= r /\ lerp f b opacity - (1 # 1000000) <= r /\ r <= lerp f b opacity + (1 # 1000000).
Proof.
  intros H [Hf0 Hf1] [Hb0 Hb1] [Ho0 Ho1]. cbv zeta.
  rewrite Zle_Qle in Hf0, Hf1, Hb0, Hb1.
  change (inject_Z 0) with 0 in *. change (inject_Z 255) with 255 in *.
  set (F := inject_Z f) in *. set (B := inject_Z b) in *.
  assert (Ha : 0 <= F * opacity <= 512) by (split; nra).
  destruct (rounding_bounds rnd _ H Ha) as (A0 & A1 & A2).
  set (a := rnd (F * opacity)) in *.
  assert (Hc : 0 <= 1 - opacity <= 512) by (split; lra).
  destruct (rounding_bounds rnd _ H Hc) as (C0 & C1 & C2).
  assert (C3 : rnd (1 - opacity) <= 1).
  { pose proof (rnd_mono rnd H (1 - opacity) 1) as M.
    pose proof (rounding_one rnd H) as O. lra. }
  set (c := rnd (1 - opacity)) in *.
  assert (Hd : 0 <= B * c <= 512) by (split; nra).
  destruct (rounding_bounds rnd _ H Hd) as (D0 & D1 & D2).
  set (d := rnd (B * c)) in *.
  assert (Hs : 0 <= a + d <= 512) by (split; nra).
  destruct (rounding_bounds rnd _ H Hs) as (R0 & R1 & R2).
  set (r := rnd (a + d)) in *.
  unfold lerp. fold F B.
  split; [exact R0|]. split; nra.
Qed.


Lemma blend_channel_fl_exact (f b : Z) (opacity : Q) :
  blend_channel_fl (fun x => x) f b opacity = blend_channel f b opacity.
Proof. reflexivity. Qed.



(** X4.  At opacity 1 the blend is the foreground channel and at opacity 0
    the background channel, exactly; for an opacity in between it is at
    most the larger of the two channels and at least the smaller less one,
    the one that truncation may take off.  This holds whatever the rounding
    of the float operations. *)
Theorem blend_channel_endpoints (rnd : Q -> Q) (f b : Z) (opacity : Q)
    (Hrnd : rounding rnd)
    (Hf : (0 <= f <= 255)%Z) (Hb : (0 <= b <= 255)%Z) (Ho : 0 <= opacity <= 1) :
  blend_channel_fl rnd f b 1 = f /\
  blend_channel_fl rnd f b 0 = b /\
  (Z.min f b - 1 <= blend_channel_fl rnd f b opacity <= Z.max f b)%Z.
Proof.
  pose proof (rounding_compat rnd) as C.
  split; [|split].
  - unfold blend_channel_fl. apply py_int_inject_Z.
    assert (E1 : rnd (1 - 1) == 0)
      by (rewrite (C (1 - 1) 0 Hrnd) by ring; apply (rounding_zero rnd Hrnd)).
    assert (E2 : rnd (inject_Z b * rnd (1 - 1)) == 0)
      by (rewrite (C (inject_Z b * rnd (1 - 1)) 0 Hrnd) by (rewrite E1; ring);
          apply (rounding_zero rnd Hrnd)).
    assert (E3 : rnd (inject_Z f * 1) == inject_Z f)
      by (rewrite (C (inject_Z f * 1) (inject_Z f) Hrnd) by ring; apply (rnd_int rnd Hrnd f Hf)).
    rewrite (C _ (inject_Z f) Hrnd) by (rewrite E2, E3; ring).
    apply (rnd_int rnd Hrnd f Hf).
  - unfold blend_channel_fl. apply py_int_inject_Z.
    assert (E1 : rnd (1 - 0) == 1)
      by (rewrite (C (1 - 0) 1 Hrnd) by ring; apply (rounding_one rnd Hrnd)).
    assert (E2 : rnd (inject_Z b * rnd (1 - 0)) == inject_Z b)
      by (rewrite (C (inject_Z b * rnd (1 - 0)) (inject_Z b) Hrnd) by (rewrite E1; ring);
          apply (rnd_int rnd Hrnd b Hb)).
    assert (E3 : rnd (inject_Z f * 0) == 0)
      by (rewrite (C (inject_Z f * 0) 0 Hrnd) by ring; apply (rounding_zero rnd Hrnd)).
    rewrite (C _ (inject_Z b) Hrnd) by (rewrite E2, E3; ring).
    apply (rnd_int rnd Hrnd b Hb).
  - destruct (blend_fl_close rnd f b opacity Hrnd Hf Hb Ho) as (R0 & R1 & R2).
    unfold blend_channel_fl. set (r := rnd (_ + _)) in *.
    destruct (py_int_bounds r R0) as [B0 B1]. set (n := py_int r) in *.
    destruct Hf as [Hf0 Hf1], Hb as [Hb0 Hb1], Ho as [Ho0 Ho1].
    assert (Hmin1 : inject_Z (Z.min f b) <= inject_Z f) by (rewrite <- Zle_Qle; lia).
    assert (Hmin2 : inject_Z (Z.min f b) <= inject_Z b) by (rewrite <- Zle_Qle; lia).
    assert (Hmax1 : inject_Z f <= inject_Z (Z.max f b)) by (rewrite <- Zle_Qle; lia).
    assert (Hmax2 : inject_Z b <= inject_Z (Z.max f b)) by (rewrite <- Zle_Qle; lia).
    unfold lerp in R1, R2.
    assert (V0 : inject_Z (Z.min f b) <= inject_Z f * opacity + inject_Z b * (1 - opacity)) by nra.
    assert (V1 : inject_Z f * opacity + inject_Z b * (1 - opacity) <= inject_Z (Z.max f b)) by nra.
    assert (K0 : inject_Z n < inject_Z (Z.max f b + 1))
      by (rewrite inject_Z_plus; change (inject_Z 1) with 1; lra).
    assert (K1 : inject_Z (Z.min f b + -2) < inject_Z n)
      by (rewrite inject_Z_plus; change (inject_Z (-2)) with (-2); lra).
    rewrite <- Zlt_Qlt in K0, K1. lia.
Qed.

Lemma blend_channel_endpoints_witness :
  blend_channel_fl grid_round 200 40 1 = 200%Z /\ blend_channel_fl grid_round 200 40 0 = 40%Z.
Proof.
  destruct (blend_channel_endpoints grid_round 200 40 (1 # 3) rounding_grid) as (E1 & E2 & _);
    [lia | lia | split; discriminate |].
  split; [exact E1 | exact E2].
Defined.

(** ** Frames written per phase *)








(** ** FadeOut, the sign of the gap and the bar limit *)

Lemma Exists_firstn_all {A} (p : A -> bool) (k : nat) (l : list A) :
  Forall (fun x => p x = true) l ->
  (Exists (fun x => p x = true) (firstn k l) <-> (0 < k)%nat /\ l <> []).
Proof.
  intros F. split.
  - intros E. destruct k as [|k]; [inversion E|]. destruct l as [|x l]; [inversion E|].
    split; [lia | discriminate].
  - intros [Hk Hl]. destruct k as [|k]; [lia|]. destruct l as [|x l]; [contradiction|].
    cbn [firstn]. apply Exists_cons_hd. now inversion F.
Qed.

Lemma not_Exists_firstn {A} (p : A -> bool) (k : nat) (l : list A) :
  Forall (fun x => p x = false) l -> ~ Exists (fun x => p x = true) (firstn k l).
Proof.
  intros F E. apply List.Exists_exists in E. destruct E as (x & Hin & Hx).
  assert (F' : Forall (fun x => p x = false) (firstn k l)) by (apply Forall_take; exact F).
  rewrite List.Forall_forall in F'.
  specialize (F' x Hin). cbv beta in F'. congruence.
Qed.

Lemma map_phase_Forall {A} (p : Frame -> bool) (b : bool) (g : A -> Frame) (l : list A) :
  (forall i, p (g i) = b) -> Forall (fun f => p f = b) (map g l).
Proof.
  intros H. apply List.Forall_forall. intros f Hf. apply in_map_iff in Hf.
  destruct Hf as (i & <- & _). apply H.
Qed.

(** The frames written for a word contain a FadeOut frame exactly when the
    fade-out loop runs, has at least one index and starts below the limit. *)
Lemma export_word_fade_out_iff (s : Settings) (limit : option Z) (word : string)
    (prev_word : option string) (c lf : Z) :
  Exists (fun f => is_fade_out_frame f = true)
    (written (export_word s limit word prev_word (mkExport c lf [])))
  <-> (0 < fade_out_f s)%Z /\ 0 <= gap s /\ fade_out_in_budget s limit lf.
Proof.
  rewrite export_word_written.
  set (k := budget limit (mkExport c lf []) (List.length (word_frames s word prev_word))).
  assert (Hk : k = budget limit (mkExport c lf []) (List.length (word_frames s word prev_word)))
    by reflexivity.
  rewrite word_frames_length in Hk. unfold frames_per_word in Hk.
  unfold word_frames.
  set (A := map (fade_in_frame s word prev_word) (range (fade_in_f s))).
  set (B := map (fun _ => mkFrame Hold (Some word) 1 None 0) (range (main_f s))).
  set (C := if Qleb 0 (gap s) then map (fade_out_frame s word) (range (fade_out_f s)) else []).
  set (D := if Qltb 0 (gap s)
            then map (fun _ => mkFrame Gap (Some EmptyString) 0 None 0) (range (gap_f s))
            else []).
  assert (LA : List.length A = Z.to_nat (fade_in_f s))
    by (unfold A; now rewrite length_map, range_length).
  assert (LB : List.length B = Z.to_nat (main_f s))
    by (unfold B; now rewrite length_map, range_length).
  assert (FA : Forall (fun f => is_fade_out_frame f = false) A)
    by (apply map_phase_Forall; reflexivity).
  assert (FB : Forall (fun f => is_fade_out_frame f = false) B)
    by (apply map_phase_Forall; reflexivity).
  assert (FC : Forall (fun f => is_fade_out_frame f = true) C).
  { unfold C. destruct (Qleb 0 (gap s)); [|constructor].
    apply map_phase_Forall. reflexivity. }
  assert (FD : Forall (fun f => is_fade_out_frame f = false) D).
  { unfold D. destruct (Qltb 0 (gap s)); [|constructor].
    apply map_phase_Forall. reflexivity. }
  assert (NC : C <> [] <-> (0 < fade_out_f s)%Z /\ 0 <= gap s).
  { unfold C. destruct (Qleb 0 (gap s)) eqn:G.
    - apply Qleb_le in G. split.
      + intros H. split; [|exact G].
        destruct (Z.ltb_spec 0 (fade_out_f s)) as [|N]; [assumption|].
        exfalso. apply H. unfold range.
        replace (Z.to_nat (fade_out_f s)) with 0%nat by lia. reflexivity.
      + intros [H _] E. apply (f_equal (@List.length Frame)) in E.
        rewrite length_map, range_length in E. cbn [List.length] in E. lia.
    - apply Qleb_gt in G. split; [intros H; contradiction|]. intros [_ H]. lra. }
  rewrite !List.firstn_app, !List.Exists_app, LA, LB.
  rewrite (Exists_firstn_all is_fade_out_frame _ C FC), NC.
  pose proof (not_Exists_firstn is_fade_out_frame k A FA) as XA.
  pose proof (not_Exists_firstn is_fade_out_frame (k - Z.to_nat (fade_in_f s)) B FB) as XB.
  pose proof (not_Exists_firstn is_fade_out_frame
                (k - Z.to_nat (fade_in_f s) - Z.to_nat (main_f s) - List.length C) D FD) as XD.
  assert (Hmain : (1 <= main_f s)%Z) by (unfold main_f; lia).
  assert (LC : (0 < fade_out_f s)%Z /\ 0 <= gap s ->
               ((if Qleb 0 (gap s) then Z.to_nat (fade_out_f s) else 0) > 0)%nat).
  { intros [H G]. apply Qleb_le in G. rewrite G. lia. }
  unfold fade_out_in_budget.
  split.
  - intros [E | [E | [[Hpos HC] | E]]]; try contradiction.
    split; [tauto|]. split; [tauto|].
    specialize (LC HC).
    destruct limit as [l|]; [|exact I].
    unfold budget in Hk. cbn [loop_frames] in Hk. lia.
  - intros (Hf & Hg & Hb). right; right; left.
    split; [|tauto].
    specialize (LC (conj Hf Hg)).
    destruct limit as [l|]; unfold budget in Hk; cbn [loop_frames] in Hk; lia.
Qed.

(** C3 (amended).  For every timing settings and every word: the live
    loop posts FadeOut steps if and only if the fade-out duration is > 0
    and gap >= 0; the exporter, under any bar limit or none, writes FadeOut
    frames if and only if the fade-out frame count [int(fadeOut * fps)] is
    > 0, gap >= 0 and the bar limit is not reached before the word's
    fade-out loop starts (which no limit, and any limit that leaves the
    word uncut, satisfies); and whenever gap < 0 neither path emits any
    FadeOut, whatever the bar limit. *)
Theorem fade_out_emitted (s : Settings) (start t : Q) (m : Metro) (c lf : Z)
    (word : string) (prev_word : option string) :
  (Exists (fun e => is_fade_out_event e = true)
     (events (live_word s start word prev_word (mkLive t m [])))
   <-> 0 < fade_out s /\ 0 <= gap s) /\
  (forall limit,
     Exists (fun f => is_fade_out_frame f = true)
       (written (export_word s limit word prev_word (mkExport c lf [])))
     <-> (0 < fade_out_f s)%Z /\ 0 <= gap s /\ fade_out_in_budget s limit lf) /\
  (forall limit, uncut s limit lf -> (0 < fade_out_f s)%Z -> 0 <= gap s ->
     fade_out_in_budget s limit lf) /\
  (gap s < 0 ->
   Forall (fun e => is_fade_out_event e = false)
     (events (live_word s start word prev_word (mkLive t m []))) /\
   forall limit,
     Forall (fun f => is_fade_out_frame f = false)
       (written (export_word s limit word prev_word (mkExport c lf [])))).
Proof.
  pose proof (live_word_events s start t m word prev_word) as HL.
  split; [|split; [|split]].
  - split.
    + intros HE. apply List.Exists_exists in HE. destruct HE as (e & Hin & He).
      rewrite List.Forall_forall in HL. specialize (HL e Hin).
      destruct e as [ph ? ? ? ? ?| |]; try discriminate.
      destruct ph; try discriminate. simpl in HL. tauto.
    + intros [Hf Hg]. apply List.Exists_exists.
      destruct (live_word_fade_out_posted s start word prev_word (mkLive t m []) Hf Hg)
        as (e & He & Hin).
      exists e. auto.
  - intros limit. apply export_word_fade_out_iff.
  - intros limit Hroom Hf Hg. unfold uncut, fade_out_in_budget in *.
    destruct limit as [l|]; [|exact I].
    unfold frames_per_word in Hroom. apply Qleb_le in Hg. rewrite Hg in Hroom.
    assert (Hmain : (1 <= main_f s)%Z) by (unfold main_f; lia).
    lia.
  - intros Hneg. split.
    + eapply List.Forall_impl; [|exact HL]. intros e He.
      destruct e as [ph ? ? ? ? ?| |]; try reflexivity.
      destruct ph; try reflexivity. simpl in He. lra.
    + intros limit. eapply List.Forall_impl; [|apply export_word_frames_ok].
      intros f Hf. unfold is_fade_out_frame. unfold frame_ok in Hf.
      destruct (f_phase f); try reflexivity. simpl. lra.
Qed.

Lemma fade_out_emitted_witness :
  gap overlap_settings < 0 /\
  Forall (fun e => is_fade_out_event e = false)
    (events (live_word overlap_settings 0 "two" (Some "one"%string) (mkLive 0 metro_init []))).
Proof.
  split; [reflexivity|].
  apply (fade_out_emitted overlap_settings 0 0 metro_init 0 0 "two" (Some "one"%string)).
  reflexivity.
Defined.

(** ** Duration of a pass, computed and played *)





